(** * Echoes of You and I (mobile client): session and presence managers

    A shallow embedding of [src/lib/storage.ts], the parts of
    [src/lib/api.ts] the session uses, [contexts/AuthContext] and
    [contexts/SocketContext], followed by the properties of the
    specification that concern them.

    Asynchronous functions are embedded in a state-and-exception monad:
    an [await] is a bind, a rejected promise is a thrown error.  What the
    outside world answers (AsyncStorage, the REST backend, the in-app
    browser, [JSON], [URL]) is read from an environment [Env], indexed by a
    clock that ticks at every external call, so that every pattern of
    failures over time is covered by quantifying over the environment. *)

From stdpp Require Import gmap strings list fin_maps.
From Stdlib Require Import ZArith Ascii.

Local Open Scope string_scope.

(** ** Promises: state threaded through computations that may throw *)

Module Async.

Inductive Error : Type :=
| StorageError   (* AsyncStorage rejected *)
| SyntaxError    (* JSON.parse *)
| TypeError      (* new URL(...) *)
| RequestError   (* fetch failed or the response was not ok *)
| BrowserError.  (* the auth session could not be opened *)

Inductive Result (A : Type) : Type :=
| Resolved (a : A)
| Rejected (e : Error).
Arguments Resolved {A} a.
Arguments Rejected {A} e.

Definition SE (S A : Type) : Type := S -> Result A * S.

Definition ret {S A} (a : A) : SE S A := fun s => (Resolved a, s).

Definition throw {S A} (e : Error) : SE S A := fun s => (Rejected e, s).

Definition bind {S A B} (m : SE S A) (k : A -> SE S B) : SE S B :=
  fun s =>
    match m s with
    | (Resolved a, s') => k a s'
    | (Rejected e, s') => (Rejected e, s')
    end.

(** [try { body } catch (e) { handler e }] *)
Definition try_catch {S A} (body : SE S A) (handler : Error -> SE S A) : SE S A :=
  fun s =>
    match body s with
    | (Resolved a, s') => (Resolved a, s')
    | (Rejected e, s') => handler e s'
    end.

(** [try { body } finally { fin }]: [fin] always runs; its own exception,
    if any, replaces the outcome of [body]. *)
Definition try_finally {S A} (body : SE S A) (fin : SE S unit) : SE S A :=
  fun s =>
    match body s with
    | (r, s') =>
        match fin s' with
        | (Resolved _, s'') => (r, s'')
        | (Rejected e, s'') => (Rejected e, s'')
        end
    end.

(** Run a computation on a component of a larger state. *)
Definition zoom {S T A} (get : T -> S) (set : S -> T -> T) (m : SE S A) : SE T A :=
  fun t => match m (get t) with (r, s') => (r, set s' t) end.

(** [await Promise.all([a, b])] for two promises whose values are dropped:
    both computations are started, in order; the result is rejected as soon
    as one of them is. *)
Definition Promise_all2 {S} (a b : SE S unit) : SE S unit :=
  fun s =>
    match a s with
    | (ra, s1) =>
        match b s1 with
        | (rb, s2) =>
            (match ra, rb with
             | Rejected e, _ => Rejected e
             | Resolved _, Rejected e => Rejected e
             | Resolved _, Resolved _ => Resolved tt
             end, s2)
        end
    end.

End Async.

Import Async.

Declare Scope async_scope.
Delimit Scope async_scope with async.
Notation "x <- m ;; k" := (bind m (fun x => k))
  (at level 100, m at next level, right associativity) : async_scope.
Notation "m ;;; k" := (bind m (fun _ => k))
  (at level 100, right associativity) : async_scope.
Local Open Scope async_scope.

(** ** JavaScript values the session looks at *)

Module Js.

(** What [JSON.parse] can return. *)
#[local] Unset Elimination Schemes.
Inductive json : Type :=
| JNull
| JBool (b : bool)
| JNumber (z : Z)
| JString (s : string)
| JArray (l : list json)
| JObject (o : list (string * json)).
#[local] Set Elimination Schemes.

(** Truthiness of a parsed value, as tested by [&&] and [if]. *)
Definition truthy (v : json) : bool :=
  match v with
  | JNull => false
  | JBool b => b
  | JNumber z => negb (Z.eqb z 0)
  | JString s => negb (String.eqb s EmptyString)
  | JArray _ => true
  | JObject _ => true
  end.

(** Truthiness of a [string | null]: [null] and the empty string are falsy. *)
Definition str_truthy (o : option string) : bool :=
  match o with
  | Some s => negb (String.eqb s EmptyString)
  | None => false
  end.

End Js.

(** ** The device and the outside world *)

Module Api.

Record User : Type := {
  id : string;
  displayName : string;
  email : option string;
  images : option (list string);
}.

Record AuthMeResponse : Type := {
  user : User;
  partnerId : option string;
  tokenExpiresAt : string;
}.

End Api.

Module Storage.

Record StoredUser : Type := {
  id : string;
  spotifyId : string;
  displayName : string;
  email : option string;
  images : option (list string);
  partnerId : option string;
}.

End Storage.

Module WebBrowser.

(** The result of [openAuthSessionAsync]: [{type: 'success', url}] or another
    type ([cancel], [dismiss], ...). *)
Inductive AuthSessionResult : Type :=
| Success (url : string)
| Other (type : string).

End WebBrowser.

(** What the collaborators answer.  The first argument of the time-dependent
    answers is the clock of the call. *)
Record Env : Type := {
  getItem_rejects : nat -> string -> bool;
  setItem_rejects : nat -> string -> bool;
  removeItem_rejects : nat -> string -> bool;
  JSON_parse : string -> option Js.json;              (* [None]: SyntaxError *)
  JSON_stringify : Storage.StoredUser -> string;
  auth_me : nat -> string -> option Api.AuthMeResponse; (* [None]: request failed *)
  auth_logout : nat -> string -> bool;                (* [false]: request failed *)
  openAuthSessionAsync : nat -> string -> string -> option WebBrowser.AuthSessionResult;
  URL_searchParams_get : string -> string -> option (option string);
                                                      (* [None]: invalid URL *)
  Linking_createURL : string -> string;
  API_URL : string;
}.

(** The persistent key-value store of the device and the clock of external
    calls. *)
Record Device : Type := {
  asyncStorage : gmap string string;
  clock : nat;
}.

Definition tick (d : Device) : Device :=
  {| asyncStorage := asyncStorage d; clock := S (clock d) |}.

Definition with_storage (m : gmap string string) (d : Device) : Device :=
  {| asyncStorage := m; clock := clock d |}.

(** *** AsyncStorage *)

Module AsyncStorage.
Section WithEnv.
Variable env : Env.

Definition getItem (key : string) : SE Device (option string) :=
  fun d =>
    if getItem_rejects env (clock d) key
    then (Rejected StorageError, tick d)
    else (Resolved (asyncStorage d !! key), tick d).

Definition setItem (key value : string) : SE Device unit :=
  fun d =>
    if setItem_rejects env (clock d) key
    then (Rejected StorageError, tick d)
    else (Resolved tt, tick (with_storage (<[key := value]> (asyncStorage d)) d)).

Definition removeItem (key : string) : SE Device unit :=
  fun d =>
    if removeItem_rejects env (clock d) key
    then (Rejected StorageError, tick d)
    else (Resolved tt, tick (with_storage (delete key (asyncStorage d)) d)).

End WithEnv.
End AsyncStorage.

(** ** [src/lib/storage.ts] *)

Module StorageOps.
Section WithEnv.
Variable env : Env.

Definition SPOTIFY_ID : string := "@echoes:spotifyId".
Definition USER_DATA : string := "@echoes:userData".

Definition getStoredSpotifyId : SE Device (option string) :=
  try_catch (AsyncStorage.getItem env SPOTIFY_ID) (fun _ => ret None).

Definition setStoredSpotifyId (spotifyId : string) : SE Device unit :=
  AsyncStorage.setItem env SPOTIFY_ID spotifyId.

Definition removeStoredSpotifyId : SE Device unit :=
  AsyncStorage.removeItem env SPOTIFY_ID.

(** [JSON.parse] throws on text that is not JSON. *)
Definition parse (text : string) : SE Device Js.json :=
  match JSON_parse env text with
  | Some v => ret v
  | None => throw SyntaxError
  end.

(** The value returned is whatever the stored text parses to; [JNull]
    stands for [null]. *)
Definition getStoredUser : SE Device Js.json :=
  try_catch
    (json <- AsyncStorage.getItem env USER_DATA ;;
     if Js.str_truthy json
     then match json with
          | Some text => parse text
          | None => ret Js.JNull
          end
     else ret Js.JNull)
    (fun _ => ret Js.JNull).

Definition setStoredUser (user : Storage.StoredUser) : SE Device unit :=
  AsyncStorage.setItem env USER_DATA (JSON_stringify env user).

Definition removeStoredUser : SE Device unit :=
  AsyncStorage.removeItem env USER_DATA.

Definition clearAuthData : SE Device unit :=
  Promise_all2 removeStoredSpotifyId removeStoredUser.

End WithEnv.
End StorageOps.

(** ** [src/lib/api.ts]: the two requests of the session *)

Module ApiClient.
Section WithEnv.
Variable env : Env.

Definition getLoginUrl : string := API_URL env ++ "/auth/login".

(** [request] rejects when [fetch] fails or the response is not ok. *)
Definition getMe (spotifyId : string) : SE Device Api.AuthMeResponse :=
  fun d =>
    match auth_me env (clock d) spotifyId with
    | Some response => (Resolved response, tick d)
    | None => (Rejected RequestError, tick d)
    end.

Definition logout (spotifyId : string) : SE Device unit :=
  fun d =>
    if auth_logout env (clock d) spotifyId
    then (Resolved tt, tick d)
    else (Rejected RequestError, tick d).

End WithEnv.
End ApiClient.

(** ** [contexts/AuthContext] *)

Module AuthContext.

Record AuthState : Type := {
  isLoading : bool;
  isAuthenticated : bool;
  user : option Storage.StoredUser;
  spotifyId : option string;
  partnerId : option string;
}.

(** The provider: the device, the React state, every state the provider was
    given by [setState] (oldest first), and the console. *)
Record World : Type := {
  device : Device;
  state : AuthState;
  renders : list AuthState;
  console : list string;
}.

Definition set_device (d : Device) (w : World) : World :=
  {| device := d; state := state w; renders := renders w; console := console w |}.

(** [useState]'s initial value. *)
Definition initialState : AuthState :=
  {| isLoading := true; isAuthenticated := false; user := None;
     spotifyId := None; partnerId := None |}.

Definition initialWorld (d : Device) : World :=
  {| device := d; state := initialState; renders := []; console := [] |}.

(** [setState(f)]; [setState(v)] is [setState (fun _ => v)]. *)
Definition setState (f : AuthState -> AuthState) : SE World unit :=
  fun w =>
    (Resolved tt,
     {| device := device w; state := f (state w);
        renders := renders w ++ [f (state w)]; console := console w |}).

Definition console_log (msg : string) : SE World unit :=
  fun w =>
    (Resolved tt,
     {| device := device w; state := state w; renders := renders w;
        console := console w ++ [msg] |}).

Definition io {A} (m : SE Device A) : SE World A := zoom device set_device m.

(** [{ ...prev, isLoading: b }] *)
Definition with_isLoading (b : bool) (prev : AuthState) : AuthState :=
  {| isLoading := b; isAuthenticated := isAuthenticated prev; user := user prev;
     spotifyId := spotifyId prev; partnerId := partnerId prev |}.

(** [{ ...prev, user, partnerId }] *)
Definition with_user (u : Storage.StoredUser) (p : option string) (prev : AuthState)
  : AuthState :=
  {| isLoading := isLoading prev; isAuthenticated := isAuthenticated prev;
     user := Some u; spotifyId := spotifyId prev; partnerId := p |}.

Definition signedOut : AuthState :=
  {| isLoading := false; isAuthenticated := false; user := None;
     spotifyId := None; partnerId := None |}.

Definition signedIn (u : Storage.StoredUser) (sid : string) (p : option string)
  : AuthState :=
  {| isLoading := false; isAuthenticated := true; user := Some u;
     spotifyId := Some sid; partnerId := p |}.

(** The [StoredUser] built from a profile response. *)
Definition toStoredUser (response : Api.AuthMeResponse) : Storage.StoredUser :=
  {| Storage.id := Api.id (Api.user response);
     Storage.spotifyId := Api.id (Api.user response);
     Storage.displayName := Api.displayName (Api.user response);
     Storage.email := Api.email (Api.user response);
     Storage.images := Api.images (Api.user response);
     Storage.partnerId := Api.partnerId response |}.

Section WithEnv.
Variable env : Env.

Definition initializeAuth : SE World unit :=
  try_catch
    (spotifyId <- io (StorageOps.getStoredSpotifyId env) ;;
     storedUser <- io (StorageOps.getStoredUser env) ;;
     match spotifyId with
     | Some sid =>
         if Js.str_truthy spotifyId && Js.truthy storedUser
         then
           try_catch
             (response <- io (ApiClient.getMe env sid) ;;
              let user := toStoredUser response in
              io (StorageOps.setStoredUser env user) ;;;
              setState (fun _ => signedIn user sid (Api.partnerId response)))
             (fun _ =>
                io (StorageOps.clearAuthData env) ;;;
                setState (fun _ => signedOut))
         else setState (fun _ => signedOut)
     | None => setState (fun _ => signedOut)
     end)
    (fun _ =>
       console_log "Auth initialization error:" ;;;
       setState (fun _ => signedOut)).

Definition handleAuthSuccess (spotifyId : string) : SE World unit :=
  try_catch
    (response <- io (ApiClient.getMe env spotifyId) ;;
     let user := toStoredUser response in
     io (StorageOps.setStoredSpotifyId env spotifyId) ;;;
     io (StorageOps.setStoredUser env user) ;;;
     setState (fun _ => signedIn user spotifyId (Api.partnerId response)))
    (fun error =>
       console_log "Error fetching user profile:" ;;;
       throw error).

Definition openAuthSession (url redirect : string)
  : SE World WebBrowser.AuthSessionResult :=
  io (fun d =>
        match openAuthSessionAsync env (clock d) url redirect with
        | Some result => (Resolved result, tick d)
        | None => (Rejected BrowserError, tick d)
        end).

(** [new URL(url).searchParams.get(name)] *)
Definition searchParam (url name : string) : SE World (option string) :=
  match URL_searchParams_get env url name with
  | Some v => ret v
  | None => throw TypeError
  end.

Definition login : SE World unit :=
  try_finally
    (try_catch
       (setState (with_isLoading true) ;;;
        let loginUrl := ApiClient.getLoginUrl env in
        result <- openAuthSession loginUrl (Linking_createURL env "/auth/callback") ;;
        match result with
        | WebBrowser.Success url =>
            if Js.str_truthy (Some url)
            then
              spotifyId <- searchParam url "spotifyId" ;;
              match spotifyId with
              | Some sid =>
                  if Js.str_truthy spotifyId
                  then handleAuthSuccess sid
                  else console_log "Auth result URL:"
              | None => console_log "Auth result URL:"
              end
            else ret tt
        | WebBrowser.Other _ => ret tt
        end)
       (fun _ => console_log "Login error:"))
    (setState (with_isLoading false)).

(** [logout] and [refreshUser] are callbacks that read [state.spotifyId] from
    the render that created them; that captured value is the argument. *)
Definition logout (state_spotifyId : option string) : SE World unit :=
  try_catch
    (setState (with_isLoading true) ;;;
     (match state_spotifyId with
      | Some sid =>
          if Js.str_truthy state_spotifyId
          then io (ApiClient.logout env sid)
          else ret tt
      | None => ret tt
      end) ;;;
     io (StorageOps.clearAuthData env) ;;;
     setState (fun _ => signedOut))
    (fun _ =>
       console_log "Logout error:" ;;;
       io (StorageOps.clearAuthData env) ;;;
       setState (fun _ => signedOut)).

Definition refreshUser (state_spotifyId : option string) : SE World unit :=
  match state_spotifyId with
  | Some sid =>
      if Js.str_truthy state_spotifyId
      then
        try_catch
          (response <- io (ApiClient.getMe env sid) ;;
           let user := toStoredUser response in
           io (StorageOps.setStoredUser env user) ;;;
           setState (with_user user (Api.partnerId response)))
          (fun _ => console_log "Error refreshing user:")
      else ret tt
  | None => ret tt
  end.

End WithEnv.

(** The session invariant of the specification:
    [isAuthenticated == (spotifyId != null && user != null)]. *)
Definition invariant (s : AuthState) : bool :=
  Bool.eqb (isAuthenticated s)
           (bool_decide (spotifyId s <> None) && bool_decide (user s <> None)).

(** Both persisted records are gone. *)
Definition storage_cleared (d : Device) : Prop :=
  asyncStorage d !! StorageOps.SPOTIFY_ID = None /\
  asyncStorage d !! StorageOps.USER_DATA = None.

End AuthContext.

(** ** [contexts/SocketContext] *)

Module Sync.

Record SyncCommand : Type := {
  trackUri : string;
  trackName : string;
  artistName : string;
  playlistId : string;
  playlistName : string;
  positionMs : Z;
}.

End Sync.

Module SocketContext.

Record PartnerStatus : Type := {
  isListening : bool;
  spotifyId : option string;
  playlistId : option string;
  playlistName : option string;
  trackUri : option string;
  trackName : option string;
  artistName : option string;
  positionMs : option Z;
  isPlaying : option bool;
  updatedAt : option Z;
}.

(** What becomes of a socket that reports [disconnect].  The socket is
    made with [reconnection: true, reconnectionAttempts: 5]: when the
    transport is lost the library connects again by itself; when the server
    closes the socket, when the client does, or when the attempts are used
    up, the socket stays closed and nothing arrives on it any more. *)
Inductive Fate : Type :=
| reconnecting
| closed_for_good.

(** Named events the transport delivers on a socket. *)
Inductive Event : Type :=
| Connect
| Disconnect (fate : Fate)
| PartnerOnline (spotifyId : string)
| PartnerOffline (spotifyId : string)
| PartnerStatusChanged (data : PartnerStatus)
| SessionSync (command : Sync.SyncCommand)
| SessionJoined (spotifyId message : string).

Definition event_name (e : Event) : string :=
  match e with
  | Connect => "connect"
  | Disconnect _ => "disconnect"
  | PartnerOnline _ => "partner:online"
  | PartnerOffline _ => "partner:offline"
  | PartnerStatusChanged _ => "partner:status"
  | SessionSync _ => "session:sync"
  | SessionJoined _ _ => "session:joined"
  end.

(** Messages the client emits. *)
Inductive Outbound : Type :=
| ListeningStart (playlistId playlistName trackUri trackName artistName : string)
                 (positionMs : Z)
| ListeningUpdate (trackUri : string) (trackName artistName : option string)
                  (positionMs : Z) (isPlaying : bool)
| ListeningStop
| SessionJoin.

(** The function objects registered with [socket.on].  The five arrow
    functions of [connectSocket] close over the state setters only.  Every
    call of [onSyncCommand] or [onSessionJoined] creates a new [handler]
    closure: [closure] is its identity, [callback] names the caller's
    function it wraps. *)
Inductive Listener : Type :=
| on_connect
| on_disconnect
| on_partner_online
| on_partner_offline
| on_partner_status
| sync_handler (closure callback : nat)
| joined_handler (closure callback : nat).

#[global] Instance Listener_eq_dec : EqDecision Listener.
Proof. solve_decision. Defined.

(** A socket made by [io(SOCKET_URL, { query: { spotifyId }, ... })].
    [active] is false once the socket is closed for good: the client has
    called [disconnect()] on it, or the library has given it up;
    [connected] is the transport's flag. *)
Record Socket : Type := {
  query : option string;
  connected : bool;
  active : bool;
  listeners : list (string * Listener);
}.

(** What a callback given to [onSyncCommand] / [onSessionJoined] was called
    with. *)
Inductive Argument : Type :=
| SyncArg (command : Sync.SyncCommand)
| JoinedArg (spotifyId message : string).

Record Call : Type := {
  call_closure : nat;
  call_callback : nat;
  call_argument : Argument;
}.

(** The provider: every socket it created (a socket is named by its
    position), [socketRef.current], the three pieces of React state, the
    number of handler closures created so far, whether an effect cleanup is
    pending, and two logs: messages emitted and callbacks invoked. *)
Record Provider : Type := {
  sockets : list Socket;
  socketRef : option nat;
  isConnected : bool;
  isPartnerOnline : bool;
  partnerStatus : option PartnerStatus;
  closures : nat;
  cleanup : bool;
  emitted : list (nat * Outbound);
  calls : list Call;
}.

Definition initial : Provider :=
  {| sockets := []; socketRef := None; isConnected := false;
     isPartnerOnline := false; partnerStatus := None; closures := 0;
     cleanup := false; emitted := []; calls := [] |}.

Definition set_sockets (l : list Socket) (p : Provider) : Provider :=
  {| sockets := l; socketRef := socketRef p; isConnected := isConnected p;
     isPartnerOnline := isPartnerOnline p; partnerStatus := partnerStatus p;
     closures := closures p; cleanup := cleanup p; emitted := emitted p;
     calls := calls p |}.

Definition set_socketRef (r : option nat) (p : Provider) : Provider :=
  {| sockets := sockets p; socketRef := r; isConnected := isConnected p;
     isPartnerOnline := isPartnerOnline p; partnerStatus := partnerStatus p;
     closures := closures p; cleanup := cleanup p; emitted := emitted p;
     calls := calls p |}.

Definition setIsConnected (b : bool) (p : Provider) : Provider :=
  {| sockets := sockets p; socketRef := socketRef p; isConnected := b;
     isPartnerOnline := isPartnerOnline p; partnerStatus := partnerStatus p;
     closures := closures p; cleanup := cleanup p; emitted := emitted p;
     calls := calls p |}.

Definition setIsPartnerOnline (b : bool) (p : Provider) : Provider :=
  {| sockets := sockets p; socketRef := socketRef p; isConnected := isConnected p;
     isPartnerOnline := b; partnerStatus := partnerStatus p;
     closures := closures p; cleanup := cleanup p; emitted := emitted p;
     calls := calls p |}.

Definition setPartnerStatus (s : option PartnerStatus) (p : Provider) : Provider :=
  {| sockets := sockets p; socketRef := socketRef p; isConnected := isConnected p;
     isPartnerOnline := isPartnerOnline p; partnerStatus := s;
     closures := closures p; cleanup := cleanup p; emitted := emitted p;
     calls := calls p |}.

Definition set_closures (n : nat) (p : Provider) : Provider :=
  {| sockets := sockets p; socketRef := socketRef p; isConnected := isConnected p;
     isPartnerOnline := isPartnerOnline p; partnerStatus := partnerStatus p;
     closures := n; cleanup := cleanup p; emitted := emitted p;
     calls := calls p |}.

Definition set_cleanup (b : bool) (p : Provider) : Provider :=
  {| sockets := sockets p; socketRef := socketRef p; isConnected := isConnected p;
     isPartnerOnline := isPartnerOnline p; partnerStatus := partnerStatus p;
     closures := closures p; cleanup := b; emitted := emitted p;
     calls := calls p |}.

Definition log_emit (i : nat) (m : Outbound) (p : Provider) : Provider :=
  {| sockets := sockets p; socketRef := socketRef p; isConnected := isConnected p;
     isPartnerOnline := isPartnerOnline p; partnerStatus := partnerStatus p;
     closures := closures p; cleanup := cleanup p;
     emitted := emitted p ++ [(i, m)]; calls := calls p |}.

Definition log_call (c : Call) (p : Provider) : Provider :=
  {| sockets := sockets p; socketRef := socketRef p; isConnected := isConnected p;
     isPartnerOnline := isPartnerOnline p; partnerStatus := partnerStatus p;
     closures := closures p; cleanup := cleanup p; emitted := emitted p;
     calls := calls p ++ [c] |}.

(** *** The socket library, as far as the provider uses it *)

Definition with_connected (b : bool) (s : Socket) : Socket :=
  {| query := query s; connected := b; active := active s;
     listeners := listeners s |}.

Definition closed (s : Socket) : Socket :=
  {| query := query s; connected := false; active := false;
     listeners := listeners s |}.

Definition with_listeners (l : list (string * Listener)) (s : Socket) : Socket :=
  {| query := query s; connected := connected s; active := active s;
     listeners := l |}.

(** [off] removes the first registration of that very function for that
    event, and nothing else. *)
Fixpoint remove_first (x : string * Listener) (l : list (string * Listener))
  : list (string * Listener) :=
  match l with
  | [] => []
  | y :: l' => if decide (x = y) then l' else y :: remove_first x l'
  end.

Definition update_socket (i : nat) (f : Socket -> Socket) (p : Provider) : Provider :=
  match sockets p !! i with
  | Some s => set_sockets (<[i := f s]> (sockets p)) p
  | None => p
  end.

(** [socket.on(event, handler)] *)
Definition socket_on (i : nat) (event : string) (h : Listener) (p : Provider)
  : Provider :=
  update_socket i (fun s => with_listeners (listeners s ++ [(event, h)]) s) p.

(** [socket.off(event, handler)] *)
Definition socket_off (i : nat) (event : string) (h : Listener) (p : Provider)
  : Provider :=
  update_socket i (fun s => with_listeners (remove_first (event, h) (listeners s)) s) p.

(** The listeners an event is dispatched to, in registration order. *)
Definition listeners_of (event : string) (s : Socket) : list Listener :=
  map snd (filter (fun r => fst r = event) (listeners s)).

(** The body of each listener.  A listener only ever runs on the event it
    was registered for; on another event it has nothing to read. *)
Definition run_listener (e : Event) (h : Listener) (p : Provider) : Provider :=
  match h, e with
  | on_connect, _ => setIsConnected true p
  | on_disconnect, _ =>
      setPartnerStatus None (setIsPartnerOnline false (setIsConnected false p))
  | on_partner_online, _ => setIsPartnerOnline true p
  | on_partner_offline, _ => setPartnerStatus None (setIsPartnerOnline false p)
  | on_partner_status, PartnerStatusChanged data =>
      let p' := setPartnerStatus (Some data) p in
      if isListening data then setIsPartnerOnline true p' else p'
  | sync_handler closure callback, SessionSync command =>
      log_call {| call_closure := closure; call_callback := callback;
                  call_argument := SyncArg command |} p
  | joined_handler closure callback, SessionJoined sid message =>
      log_call {| call_closure := closure; call_callback := callback;
                  call_argument := JoinedArg sid message |} p
  | _, _ => p
  end.

Definition dispatch (e : Event) (hs : list Listener) (p : Provider) : Provider :=
  fold_left (fun q h => run_listener e h q) hs p.

(** The transport delivers [e] on socket [i].  A socket that is closed for
    good receives nothing any more.  The socket's own flags follow
    [connect] and [disconnect] before the listeners run: a [disconnect]
    with the library reconnecting clears [connected] only, one that closes
    the socket for good closes it.  The library also gives a socket up
    without a [disconnect], when the reconnection attempts are used up;
    that happens on a socket that is not connected, with the three pieces
    of state at their defaults, where the closing [disconnect] of the model
    sets the same three values again. *)
Definition deliver (i : nat) (e : Event) (p : Provider) : Provider :=
  match sockets p !! i with
  | Some s =>
      if active s
      then
        let p1 :=
          match e with
          | Connect => update_socket i (with_connected true) p
          | Disconnect reconnecting => update_socket i (with_connected false) p
          | Disconnect closed_for_good => update_socket i closed p
          | _ => p
          end in
        dispatch e (listeners_of (event_name e) s) p1
      else p
  | None => p
  end.

(** [socket.disconnect()]: a connected socket fires its [disconnect]
    listeners; the socket is closed for good. *)
Definition socket_disconnect (i : nat) (p : Provider) : Provider :=
  match sockets p !! i with
  | Some s =>
      let p1 := update_socket i closed p in
      if connected s && active s
      then dispatch (Disconnect closed_for_good) (listeners_of "disconnect" s) p1
      else p1
  | None => p
  end.

(** [io(...)]: a new socket, not yet connected, without listeners. *)
Definition io (spotifyId : option string) (p : Provider) : nat * Provider :=
  (length (sockets p),
   set_sockets (sockets p ++ [{| query := spotifyId; connected := false;
                                 active := true; listeners := [] |}]) p).

(** [socketRef.current?.connected] *)
Definition current_connected (p : Provider) : bool :=
  match socketRef p with
  | Some i =>
      match sockets p !! i with
      | Some s => connected s
      | None => false
      end
  | None => false
  end.

(** *** The provider's functions *)

(** [spotifyId] is the identity of the render that created the callback. *)
Definition connectSocket (spotifyId : option string) (p : Provider) : Provider :=
  if current_connected p then p
  else
    let '(socket, p0) := io spotifyId p in
    let p1 := socket_on socket "connect" on_connect p0 in
    let p2 := socket_on socket "disconnect" on_disconnect p1 in
    let p3 := socket_on socket "partner:online" on_partner_online p2 in
    let p4 := socket_on socket "partner:offline" on_partner_offline p3 in
    let p5 := socket_on socket "partner:status" on_partner_status p4 in
    set_socketRef (Some socket) p5.

Definition disconnectSocket (p : Provider) : Provider :=
  match socketRef p with
  | Some i =>
      let p1 := socket_disconnect i p in
      let p2 := set_socketRef None p1 in
      setPartnerStatus None (setIsPartnerOnline false (setIsConnected false p2))
  | None => p
  end.

(** [socketRef.current?.emit(...)] *)
Definition emit (m : Outbound) (p : Provider) : Provider :=
  match socketRef p with
  | Some i => log_emit i m p
  | None => p
  end.

Definition startListening (playlistId playlistName trackUri trackName artistName : string)
  (positionMs : Z) : Provider -> Provider :=
  emit (ListeningStart playlistId playlistName trackUri trackName artistName positionMs).

Definition updateListening (trackUri : string) (trackName artistName : option string)
  (positionMs : Z) (isPlaying : bool) : Provider -> Provider :=
  emit (ListeningUpdate trackUri trackName artistName positionMs isPlaying).

Definition stopListening : Provider -> Provider := emit ListeningStop.

Definition joinPartnerSession : Provider -> Provider := emit SessionJoin.

(** The function returned by a registration, [() =>
    socketRef.current?.off(event, handler)]: it holds the handler closure
    made by that registration and looks [socketRef.current] up when it is
    called. *)
Inductive Detach : Type :=
| off_sync (closure callback : nat)
| off_joined (closure callback : nat).

Definition detach_event (d : Detach) : string :=
  match d with
  | off_sync _ _ => "session:sync"
  | off_joined _ _ => "session:joined"
  end.

Definition detach_handler (d : Detach) : Listener :=
  match d with
  | off_sync closure callback => sync_handler closure callback
  | off_joined closure callback => joined_handler closure callback
  end.

Definition detach (d : Detach) (p : Provider) : Provider :=
  match socketRef p with
  | Some i => socket_off i (detach_event d) (detach_handler d) p
  | None => p
  end.

(** A registration makes a new closure and attaches it to the current
    socket, if there is one. *)
Definition register (event : string) (handler : Listener) (p : Provider) : Provider :=
  let p1 := set_closures (S (closures p)) p in
  match socketRef p1 with
  | Some i => socket_on i event handler p1
  | None => p1
  end.

Definition onSyncCommand (callback : nat) (p : Provider) : Detach * Provider :=
  (off_sync (closures p) callback,
   register "session:sync" (sync_handler (closures p) callback) p).

Definition onSessionJoined (callback : nat) (p : Provider) : Detach * Provider :=
  (off_joined (closures p) callback,
   register "session:joined" (joined_handler (closures p) callback) p).

(** *** The effect that owns the connection

    [useEffect(() => { if (isAuthenticated && spotifyId) connectSocket();
    else disconnectSocket(); return () => disconnectSocket(); },
    [isAuthenticated, spotifyId])].  React runs the cleanup of the previous
    run before the effect runs again, and at unmount. *)
Definition effect_body (isAuthenticated : bool) (spotifyId : option string)
  (p : Provider) : Provider :=
  if isAuthenticated && Js.str_truthy spotifyId
  then connectSocket spotifyId p
  else disconnectSocket p.

Definition run_cleanup (p : Provider) : Provider :=
  if cleanup p then set_cleanup false (disconnectSocket p) else p.

Definition effect (isAuthenticated : bool) (spotifyId : option string)
  (p : Provider) : Provider :=
  set_cleanup true (effect_body isAuthenticated spotifyId (run_cleanup p)).

Definition unmount (p : Provider) : Provider := run_cleanup p.

(** Everything that can happen to a mounted provider: the effect runs for
    new values of the session, the transport delivers an event, a consumer
    of the context calls one of the functions it exposes or a function a
    registration returned.  [connectSocket] and [disconnectSocket] are not
    part of the context value; only the effect calls them. *)
Inductive Action : Type :=
| Effect (isAuthenticated : bool) (spotifyId : option string)
| Unmount
| Transport (socket : nat) (e : Event)
| Emit (m : Outbound)
| OnSyncCommand (callback : nat)
| OnSessionJoined (callback : nat)
| CallDetach (d : Detach).

Definition step (p : Provider) (a : Action) : Provider :=
  match a with
  | Effect isAuthenticated spotifyId => effect isAuthenticated spotifyId p
  | Unmount => unmount p
  | Transport i e => deliver i e p
  | Emit m => emit m p
  | OnSyncCommand callback => snd (onSyncCommand callback p)
  | OnSessionJoined callback => snd (onSessionJoined callback p)
  | CallDetach d => detach d p
  end.

Definition run (actions : list Action) (p : Provider) : Provider :=
  fold_left step actions p.

(** The sockets the client has opened that are not closed for good. *)
Definition open_connections (p : Provider) : list Socket :=
  filter (fun s => active s = true) (sockets p).

(** The arguments a given handler closure was called with, oldest first. *)
Definition received (closure : nat) (p : Provider) : list Argument :=
  map call_argument (filter (fun c => call_closure c = closure) (calls p)).

(** Events delivered one after the other on one socket. *)
Definition deliver_all (i : nat) (es : list Event) (p : Provider) : Provider :=
  fold_left (fun q e => deliver i e q) es p.

(** *** Vocabulary of the statements *)

(** The registrations [connectSocket] makes on a new socket. *)
Definition base_listeners : list (string * Listener) :=
  [("connect", on_connect); ("disconnect", on_disconnect);
   ("partner:online", on_partner_online); ("partner:offline", on_partner_offline);
   ("partner:status", on_partner_status)].

(** A registration made through [onSyncCommand] or [onSessionJoined] by a
    provider that has created [n] handler closures. *)
Definition session_registration (n : nat) (r : string * Listener) : Prop :=
  match r with
  | (event, sync_handler closure _) => event = "session:sync" /\ closure < n
  | (event, joined_handler closure _) => event = "session:joined" /\ closure < n
  | _ => False
  end.

(** A socket as the provider wires it: the five listeners of
    [connectSocket], then session registrations. *)
Definition wired (n : nat) (s : Socket) : Prop :=
  exists extra,
    listeners s = (base_listeners ++ extra)%list /\ Forall (session_registration n) extra.

(** What every state of a mounted provider satisfies: an open socket is
    the one held; the socket held exists (it may be closed for good, by a
    [disconnect] of the server); a connected socket is open; and while no
    socket is open the three values are the defaults. *)
Record tidy (p : Provider) : Prop := {
  tidy_active :
    forall i s, sockets p !! i = Some s -> active s = true -> socketRef p = Some i;
  tidy_ref :
    forall i, socketRef p = Some i -> exists s, sockets p !! i = Some s;
  tidy_connected :
    forall i s, sockets p !! i = Some s -> connected s = true -> active s = true;
  tidy_idle :
    (forall i s, sockets p !! i = Some s -> active s = false) ->
    isConnected p = false /\ isPartnerOnline p = false /\ partnerStatus p = None;
  tidy_wired : forall i s, sockets p !! i = Some s -> wired (closures p) s;
  tidy_calls : Forall (fun c => call_closure c < closures p) (calls p);
}.

(** Before the effect has run, and after its cleanup, no socket is held. *)
Definition settled (p : Provider) : Prop :=
  cleanup p = false -> socketRef p = None.

(** The socket [connectSocket] leaves behind: open, not yet connected,
    with its five listeners. *)
Definition fresh_socket (spotifyId : option string) : Socket :=
  {| query := spotifyId; connected := false; active := true;
     listeners := base_listeners |}.

(** What the transport does to the socket's own flags when it delivers [e]. *)
Definition flagged (e : Event) (s : Socket) : Socket :=
  match e with
  | Connect => with_connected true s
  | Disconnect reconnecting => with_connected false s
  | Disconnect closed_for_good => closed s
  | _ => s
  end.

(** The event after which nothing arrives on the socket any more. *)
Definition closes (e : Event) : bool :=
  match e with
  | Disconnect closed_for_good => true
  | _ => false
  end.

(** The events among [es] that arrive on an open socket: those up to the
    [disconnect] that closes it for good, if there is one. *)
Fixpoint arriving (es : list Event) : list Event :=
  match es with
  | [] => []
  | e :: es' => e :: (if closes e then [] else arriving es')
  end.

(** The events among [es] that arrive on socket [i] of [p]: none when the
    socket is closed for good already. *)
Definition arrivals (p : Provider) (i : nat) (es : list Event) : list Event :=
  match sockets p !! i with
  | Some s => if active s then arriving es else []
  | None => []
  end.

(** The calls a dispatch of [e] to the listeners [hs] makes to callbacks. *)
Definition call_of (e : Event) (h : Listener) : list Call :=
  match h, e with
  | sync_handler closure callback, SessionSync command =>
      [{| call_closure := closure; call_callback := callback;
          call_argument := SyncArg command |}]
  | joined_handler closure callback, SessionJoined sid message =>
      [{| call_closure := closure; call_callback := callback;
          call_argument := JoinedArg sid message |}]
  | _, _ => []
  end.

Definition calls_of (e : Event) (hs : list Listener) : list Call :=
  flat_map (call_of e) hs.

(** What the handler closure [h] is called with when [e] is dispatched to
    the registrations [l]. *)
Definition heard (h : nat) (l : list (string * Listener)) (e : Event) : list Argument :=
  map call_argument
    (filter (fun c => call_closure c = h)
       (calls_of e (map snd (filter (fun r => fst r = event_name e) l)))).

(** The [session:sync] commands among the events [es], in order. *)
Definition sync_arguments (es : list Event) : list Argument :=
  flat_map (fun e => match e with SessionSync c => [SyncArg c] | _ => [] end) es.

(** The [session:sync] commands the transport delivers along [actions]. *)
Definition delivered_commands (actions : list Action) : list Argument :=
  flat_map (fun a => match a with
                     | Transport _ (SessionSync c) => [SyncArg c]
                     | _ => []
                     end) actions.

(** The claim about two registrations, as the specification states it:
    once the first is detached, the second handler is called with every
    [session:sync] command delivered from then on. *)
Definition detach_as_specified (cb1 cb2 : nat) (p : Provider) (later : list Action)
  : Prop :=
  let first := onSyncCommand cb1 p in
  let second := onSyncCommand cb2 (snd first) in
  let p3 := detach (fst first) (snd second) in
  received (S (closures p)) (run later p3) = delivered_commands later.

(** A status with a track name only. *)
Definition now_playing (listening : bool) (track : string) : PartnerStatus :=
  {| isListening := listening; spotifyId := None; playlistId := None;
     playlistName := None; trackUri := None; trackName := Some track;
     artistName := None; positionMs := None; isPlaying := None;
     updatedAt := None |}.

Definition command (track : string) : Sync.SyncCommand :=
  {| Sync.trackUri := "spotify:track:" ++ track; Sync.trackName := track;
     Sync.artistName := "artist"; Sync.playlistId := "pl";
     Sync.playlistName := "ours"; Sync.positionMs := 0%Z |}.

End SocketContext.

(** ** Sample collaborators, for concrete runs *)

Module Sample.

(** The double quote character. *)
Definition dq : string := String (Ascii.ascii_of_nat 34) EmptyString.

(** The text of [{ id: 'u1' }] and a truncated copy of it. *)
Definition user_text : string := "{" ++ dq ++ "id" ++ dq ++ ":" ++ dq ++ "u1" ++ dq ++ "}".
Definition damaged_text : string := "{" ++ dq ++ "id" ++ dq ++ ":".

(** A parser that knows two texts. *)
Definition parse (text : string) : option Js.json :=
  if String.eqb text user_text then Some (Js.JObject [("id", Js.JString "u1")])
  else if String.eqb text "null" then Some Js.JNull
  else None.

Definition profile (spotifyId : string) (partner : option string) : Api.AuthMeResponse :=
  {| Api.user := {| Api.id := spotifyId; Api.displayName := "Listener";
                    Api.email := None; Api.images := None |};
     Api.partnerId := partner;
     Api.tokenExpiresAt := "2030-01-01T00:00:00Z" |}.

(** The callback URL carries [spotifyId=u1] or nothing. *)
Definition searchParams_get (url name : string) : option (option string) :=
  if String.eqb url "echoes://auth/callback?spotifyId=u1"
  then Some (if String.eqb name "spotifyId" then Some "u1" else None)
  else if String.eqb url "echoes://auth/callback" then Some None
  else None.

(** Everything works; the backend pairs every user with [u2]; the browser
    comes back with [callback]. *)
Definition env (callback : string) : Env :=
  {| getItem_rejects := fun _ _ => false;
     setItem_rejects := fun _ _ => false;
     removeItem_rejects := fun _ _ => false;
     JSON_parse := parse;
     JSON_stringify := fun u => "{" ++ dq ++ "id" ++ dq ++ ":" ++ dq ++ Storage.id u ++ dq ++ "}";
     auth_me := fun _ spotifyId => Some (profile spotifyId (Some "u2"));
     auth_logout := fun _ _ => true;
     openAuthSessionAsync := fun _ _ _ => Some (WebBrowser.Success callback);
     URL_searchParams_get := searchParams_get;
     Linking_createURL := fun path => "echoes://" ++ path;
     API_URL := "http://localhost:3000" |}.

Definition offline (e : Env) : Env :=
  {| getItem_rejects := getItem_rejects e;
     setItem_rejects := setItem_rejects e;
     removeItem_rejects := removeItem_rejects e;
     JSON_parse := JSON_parse e;
     JSON_stringify := JSON_stringify e;
     auth_me := fun _ _ => None;
     auth_logout := fun _ _ => false;
     openAuthSessionAsync := openAuthSessionAsync e;
     URL_searchParams_get := URL_searchParams_get e;
     Linking_createURL := Linking_createURL e;
     API_URL := API_URL e |}.

(** The store rejects every write and removal. *)
Definition read_only (e : Env) : Env :=
  {| getItem_rejects := getItem_rejects e;
     setItem_rejects := fun _ _ => true;
     removeItem_rejects := fun _ _ => true;
     JSON_parse := JSON_parse e;
     JSON_stringify := JSON_stringify e;
     auth_me := auth_me e;
     auth_logout := auth_logout e;
     openAuthSessionAsync := openAuthSessionAsync e;
     URL_searchParams_get := URL_searchParams_get e;
     Linking_createURL := Linking_createURL e;
     API_URL := API_URL e |}.

(** The store rejects every read. *)
Definition unreadable (e : Env) : Env :=
  {| getItem_rejects := fun _ _ => true;
     setItem_rejects := setItem_rejects e;
     removeItem_rejects := removeItem_rejects e;
     JSON_parse := JSON_parse e;
     JSON_stringify := JSON_stringify e;
     auth_me := auth_me e;
     auth_logout := auth_logout e;
     openAuthSessionAsync := openAuthSessionAsync e;
     URL_searchParams_get := URL_searchParams_get e;
     Linking_createURL := Linking_createURL e;
     API_URL := API_URL e |}.

(** A device that holds the session of [u1]. *)
Definition paired_device : Device :=
  {| asyncStorage :=
       <[StorageOps.SPOTIFY_ID := "u1"]>
         (<[StorageOps.USER_DATA := user_text]> ∅);
     clock := 0 |}.

(** A device whose user record is damaged. *)
Definition damaged_device : Device :=
  {| asyncStorage :=
       <[StorageOps.SPOTIFY_ID := "u1"]>
         (<[StorageOps.USER_DATA := damaged_text]> ∅);
     clock := 0 |}.

Definition empty_device : Device := {| asyncStorage := ∅; clock := 0 |}.

Definition stored_u1 : Storage.StoredUser :=
  AuthContext.toStoredUser (profile "u1" (Some "u2")).

End Sample.

(** ** Vocabulary of the statements *)

Import AuthContext.

(** A pair read at startup: [getStoredSpotifyId] gives a non-empty identity
    and [getStoredUser], called next, gives a truthy value. *)
Definition persisted_pair (env : Env) (d : Device) (sid : string) (v : Js.json) : Prop :=
  fst (StorageOps.getStoredSpotifyId env d) = Resolved (Some sid) /\
  sid <> EmptyString /\
  fst (StorageOps.getStoredUser env (tick d)) = Resolved v /\
  Js.truthy v = true.

(** No removal is ever rejected. *)
Definition removals_succeed (env : Env) : Prop :=
  forall t key, removeItem_rejects env t key = false.

(** The claim about [initialize()], as the specification states it: for a
    persisted pair, authenticated exactly when the profile request succeeds,
    and when it fails both records are gone. *)
Definition initialize_as_specified (env : Env) (w : World) : Prop :=
  forall sid v,
    persisted_pair env (device w) sid v ->
    let fetched := auth_me env (S (S (clock (device w)))) sid in
    let w' := snd (initializeAuth env w) in
    (isAuthenticated (state w') = true <-> is_Some fetched) /\
    (fetched = None ->
     isAuthenticated (state w') = false /\ storage_cleared (device w')).

(** The claim about [logout()], as the specification states it. *)
Definition logout_as_specified (env : Env) (state_spotifyId : option string)
  (w : World) : Prop :=
  let w' := snd (logout env state_spotifyId w) in
  isAuthenticated (state w') = false /\
  spotifyId (state w') = None /\
  user (state w') = None /\
  storage_cleared (device w').

(** A provider that holds the session of [u1]. *)
Definition signed_in_world : World :=
  {| device := Sample.paired_device;
     state := signedIn Sample.stored_u1 "u1" (Some "u2");
     renders := [];
     console := [] |}.

(** The operations of the session manager.  [Logout] and [RefreshUser]
    carry the identity their callback captured; it may be older than the
    current state (a refresh still in flight when a logout completes). *)
Inductive SessionOp : Type :=
| Initialize
| Login
| Logout (state_spotifyId : option string)
| RefreshUser (state_spotifyId : option string).

Definition perform (env : Env) (op : SessionOp) : SE World unit :=
  match op with
  | Initialize => initializeAuth env
  | Login => login env
  | Logout captured => logout env captured
  | RefreshUser captured => refreshUser env captured
  end.

(** Operations performed one after the other; an operation that rejects
    leaves the provider as it was when it threw. *)
Definition session_run (env : Env) (ops : list SessionOp) (w : World) : World :=
  fold_left (fun w op => snd (perform env op w)) ops w.

(** What the states of the provider have in common: an identity is held
    exactly by the authenticated states, and those hold a user. *)
Definition coherent (s : AuthState) : Prop :=
  if isAuthenticated s
  then spotifyId s <> None /\ user s <> None
  else spotifyId s = None.

(** The current state and every state ever given to [setState] are
    coherent. *)
Definition all_coherent (w : World) : Prop :=
  coherent (state w) /\ Forall coherent (renders w).

Definition preserves {A} (P : World -> Prop) (m : SE World A) : Prop :=
  forall w, P w -> P (snd (m w)).

(** What [initializeAuth] reads at startup: the value of
    [getStoredSpotifyId] and then of [getStoredUser] (both always
    resolve). *)
Definition startup_reads (env : Env) (d : Device) : option string * Js.json :=
  (match fst (StorageOps.getStoredSpotifyId env d) with
   | Resolved id => id
   | Rejected _ => None
   end,
   match fst (StorageOps.getStoredUser env (tick d)) with
   | Resolved v => v
   | Rejected _ => Js.JNull
   end).

(** Both persisted records, as [handleAuthSuccess] and the callback screen
    write them. *)
Definition persisted (env : Env) (d : Device) (sid : string) (u : Storage.StoredUser)
  : Prop :=
  asyncStorage d !! StorageOps.SPOTIFY_ID = Some sid /\
  asyncStorage d !! StorageOps.USER_DATA = Some (JSON_stringify env u).

(** A store that accepts every read, write and removal. *)
Definition store_accepts (env : Env) : Prop :=
  forall t key,
    getItem_rejects env t key = false /\
    setItem_rejects env t key = false /\
    removeItem_rejects env t key = false.

(** ** [lib/config]: the URL the socket connects to *)

Module Config.

(** [BACKEND_PORT], as interpolated into the URL. *)
Definition BACKEND_PORT : string := "3000".

(** What the resolution reads: [process.env.EXPO_PUBLIC_API_URL],
    [__DEV__], [Constants.expoConfig?.hostUri] and [Platform.OS]. *)
Record Runtime : Type := {
  EXPO_PUBLIC_API_URL : option string;
  DEV : bool;
  hostUri : option string;
  Platform_OS : string;
}.

(** [s.split(':')[0]]: the text before the first colon. *)
Fixpoint before_colon (s : string) : string :=
  match s with
  | EmptyString => EmptyString
  | String c rest =>
      if Ascii.eqb c ":"%char then EmptyString else String c (before_colon rest)
  end.

(** A [string | undefined] that passed a truthiness test, as a string. *)
Definition the (o : option string) : string := default EmptyString o.

Definition getApiUrl (r : Runtime) : string :=
  if Js.str_truthy (EXPO_PUBLIC_API_URL r) then the (EXPO_PUBLIC_API_URL r)
  else if DEV r then
    if Js.str_truthy (hostUri r)
    then "http://" ++ before_colon (the (hostUri r)) ++ ":" ++ BACKEND_PORT
    else if String.eqb (Platform_OS r) "android"
         then "http://10.0.2.2:" ++ BACKEND_PORT
         else "http://localhost:" ++ BACKEND_PORT
  else "https://your-production-api.com".

(** [API_URL] of [src/lib/api.ts]:
    [process.env.EXPO_PUBLIC_API_URL || 'http://localhost:3000']. *)
Definition rest_API_URL (r : Runtime) : string :=
  if Js.str_truthy (EXPO_PUBLIC_API_URL r) then the (EXPO_PUBLIC_API_URL r)
  else "http://localhost:3000".

End Config.

(** ** The authorization callback screen, a caller of the session *)

Module AuthCallbackScreen.

(** The text given to [setError]: the fixed sentence of the missing-identity
    branch, or [err.message || 'Authentication failed'] for a caught error. *)
Inductive ErrorText : Type :=
| PleaseTryAgain
| MessageOf (err : Error).

(** The screen's own state and the route it replaced itself with. *)
Record Screen : Type := {
  error : option ErrorText;
  replaced_with : option string;
}.

Definition initialScreen : Screen := {| error := None; replaced_with := None |}.

Definition session {A} (m : SE World A) : SE (World * Screen) A :=
  zoom fst (fun w t => (w, snd t)) m.

Definition setError (e : ErrorText) : SE (World * Screen) unit :=
  fun t => (Resolved tt, (fst t, {| error := Some e; replaced_with := replaced_with (snd t) |})).

Definition router_replace (route : string) : SE (World * Screen) unit :=
  fun t => (Resolved tt, (fst t, {| error := error (snd t); replaced_with := Some route |})).

(** [params_spotifyId] is [params.spotifyId]; [state_spotifyId] is the
    identity captured by the [refreshUser] the screen got from [useAuth]. *)
Definition handleCallback (env : Env) (params_spotifyId state_spotifyId : option string)
  : SE (World * Screen) unit :=
  try_catch
    (match params_spotifyId with
     | Some spotifyId =>
         if Js.str_truthy params_spotifyId
         then
           response <- session (io (ApiClient.getMe env spotifyId)) ;;
           let user := toStoredUser response in
           session (io (StorageOps.setStoredSpotifyId env spotifyId)) ;;;
           session (io (StorageOps.setStoredUser env user)) ;;;
           session (refreshUser env state_spotifyId) ;;;
           router_replace "/(tabs)"
         else setError PleaseTryAgain
     | None => setError PleaseTryAgain
     end)
    (fun err =>
       session (console_log "Auth callback error:") ;;;
       setError (MessageOf err)).

End AuthCallbackScreen.

(** ** Screens that use the presence channel *)

Module Screens.
Import SocketContext.

(** What the listeners [connectSocket] registers do to the three pieces of
    state when [e] arrives. *)
Definition presence (e : Event) (p : Provider) : Provider :=
  match e with
  | Connect => run_listener e on_connect p
  | Disconnect _ => run_listener e on_disconnect p
  | PartnerOnline _ => run_listener e on_partner_online p
  | PartnerOffline _ => run_listener e on_partner_offline p
  | PartnerStatusChanged _ => run_listener e on_partner_status p
  | SessionSync _ | SessionJoined _ _ => p
  end.

(** Two facts about the view that hold together along every run:
    [isConnected] is the flag of the socket held, and a listening partner
    is an online partner. *)
Definition in_step (p : Provider) : Prop :=
  isConnected p = current_connected p /\
  (forall d, partnerStatus p = Some d -> isListening d = true -> isPartnerOnline p = true).

(** The state the view reads. *)
Definition view (p : Provider) : bool * bool * option PartnerStatus :=
  (isConnected p, isPartnerOnline p, partnerStatus p).

(** The effect of the now-playing screen: it registers a callback for sync
    commands and one for joined sessions, and its cleanup calls the two
    functions the registrations returned, in that order. *)
Definition nowPlaying_effect (syncCallback joinedCallback : nat) (p : Provider)
  : (Detach * Detach) * Provider :=
  let '(unsubscribeSync, p1) := onSyncCommand syncCallback p in
  let '(unsubscribeJoined, p2) := onSessionJoined joinedCallback p1 in
  ((unsubscribeSync, unsubscribeJoined), p2).

Definition nowPlaying_cleanup (u : Detach * Detach) (p : Provider) : Provider :=
  detach (snd u) (detach (fst u) p).

(** [handleJoinPartner] / [handleSyncWithPartner]: an alert when
    [!partnerStatus?.isListening], else [joinPartnerSession()].  The boolean
    tells whether the alert was shown. *)
Definition handleJoinPartner (p : Provider) : bool * Provider :=
  match partnerStatus p with
  | Some status =>
      if isListening status then (false, joinPartnerSession p) else (true, p)
  | None => (true, p)
  end.

(** The [session:joined] events among [es], as callback arguments. *)
Definition joined_arguments (es : list Event) : list Argument :=
  flat_map (fun e => match e with
                     | SessionJoined sid message => [JoinedArg sid message]
                     | _ => []
                     end) es.

End Screens.

(** * Properties *)

(** Split a conjunction into its parts, without touching what is under an
    implication. *)
Ltac conjs := repeat match goal with |- _ /\ _ => split end.

(** ** Persisted-state reads *)

Section StorageReads.
Variable env : Env.

Lemma getStoredSpotifyId_run d :
  StorageOps.getStoredSpotifyId env d =
  (Resolved (if getItem_rejects env (clock d) StorageOps.SPOTIFY_ID
             then None else asyncStorage d !! StorageOps.SPOTIFY_ID),
   tick d).
Proof.
  unfold StorageOps.getStoredSpotifyId, try_catch, AsyncStorage.getItem.
  destruct (getItem_rejects env (clock d) StorageOps.SPOTIFY_ID); reflexivity.
Qed.

Lemma getStoredUser_device d : snd (StorageOps.getStoredUser env d) = tick d.
Proof.
  unfold StorageOps.getStoredUser, try_catch, bind, AsyncStorage.getItem,
    StorageOps.parse.
  destruct (getItem_rejects env (clock d) StorageOps.USER_DATA); [reflexivity|].
  destruct (asyncStorage d !! StorageOps.USER_DATA) as [text|]; simpl; [|reflexivity].
  destruct (negb (String.eqb text EmptyString)); [|reflexivity].
  destruct (JSON_parse env text); reflexivity.
Qed.

Lemma getStoredUser_resolves d : exists v, fst (StorageOps.getStoredUser env d) = Resolved v.
Proof.
  unfold StorageOps.getStoredUser, try_catch, bind, AsyncStorage.getItem,
    StorageOps.parse.
  destruct (getItem_rejects env (clock d) StorageOps.USER_DATA); [by eexists|].
  destruct (asyncStorage d !! StorageOps.USER_DATA) as [text|]; simpl; [|by eexists].
  destruct (negb (String.eqb text EmptyString)); [|by eexists].
  destruct (JSON_parse env text); by eexists.
Qed.

Lemma getStoredUser_read_error d :
  getItem_rejects env (clock d) StorageOps.USER_DATA = true ->
  fst (StorageOps.getStoredUser env d) = Resolved Js.JNull.
Proof.
  intros H.
  unfold StorageOps.getStoredUser, try_catch, bind, AsyncStorage.getItem.
  by rewrite H.
Qed.

Lemma getStoredUser_not_json d text :
  asyncStorage d !! StorageOps.USER_DATA = Some text ->
  JSON_parse env text = None ->
  fst (StorageOps.getStoredUser env d) = Resolved Js.JNull.
Proof.
  intros Hs Hp.
  unfold StorageOps.getStoredUser, try_catch, bind, AsyncStorage.getItem,
    StorageOps.parse.
  destruct (getItem_rejects env (clock d) StorageOps.USER_DATA); [reflexivity|].
  rewrite Hs; simpl.
  destruct (negb (String.eqb text EmptyString)); [|reflexivity].
  by rewrite Hp.
Qed.

Lemma getStoredUser_parsed d text v :
  getItem_rejects env (clock d) StorageOps.USER_DATA = false ->
  asyncStorage d !! StorageOps.USER_DATA = Some text ->
  text <> EmptyString ->
  JSON_parse env text = Some v ->
  StorageOps.getStoredUser env d = (Resolved v, tick d).
Proof.
  intros Hr Hs Hne Hp.
  unfold StorageOps.getStoredUser, try_catch, bind, AsyncStorage.getItem,
    StorageOps.parse.
  rewrite Hr, Hs; simpl.
  destruct (String.eqb_spec text EmptyString) as [->|_]; [done|]; simpl.
  by rewrite Hp.
Qed.

End StorageReads.

(** C10.  [getStoredSpotifyId] and [getStoredUser] never reject, whatever
    AsyncStorage and [JSON.parse] do: each resolves with some value on
    every device and in every environment.  When the read is rejected they
    resolve with [null], and so does [getStoredUser] when the stored record
    is not valid JSON. *)
Theorem stored_reads_are_total (env : Env) (d : Device) :
  (exists id, fst (StorageOps.getStoredSpotifyId env d) = Resolved id) /\
  (exists u, fst (StorageOps.getStoredUser env d) = Resolved u) /\
  (getItem_rejects env (clock d) StorageOps.SPOTIFY_ID = true ->
   fst (StorageOps.getStoredSpotifyId env d) = Resolved None) /\
  (getItem_rejects env (clock d) StorageOps.USER_DATA = true ->
   fst (StorageOps.getStoredUser env d) = Resolved Js.JNull) /\
  (forall text,
     asyncStorage d !! StorageOps.USER_DATA = Some text ->
     JSON_parse env text = None ->
     fst (StorageOps.getStoredUser env d) = Resolved Js.JNull).
Proof.
  split; [|split; [|split; [|split]]].
  - rewrite getStoredSpotifyId_run. by eexists.
  - apply getStoredUser_resolves.
  - intros H. rewrite getStoredSpotifyId_run. by rewrite H.
  - apply getStoredUser_read_error.
  - intros text. apply getStoredUser_not_json.
Qed.

(** A store that rejects every read, and a damaged user record. *)
Example stored_reads_read_error :
  fst (StorageOps.getStoredSpotifyId (Sample.unreadable (Sample.env EmptyString))
         Sample.paired_device) = Resolved None /\
  fst (StorageOps.getStoredUser (Sample.unreadable (Sample.env EmptyString))
         Sample.paired_device) = Resolved Js.JNull.
Proof. split; reflexivity. Qed.

Example stored_reads_damaged_record :
  fst (StorageOps.getStoredUser (Sample.env EmptyString) Sample.damaged_device)
  = Resolved Js.JNull.
Proof. vm_compute. reflexivity. Qed.

(** ** The session manager *)

Section Session.
Variable env : Env.

Lemma io_run {A} (m : SE Device A) w :
  io m w = (fst (m (device w)), set_device (snd (m (device w))) w).
Proof. unfold io, zoom. by destruct (m (device w)). Qed.

Lemma str_truthy_Some sid : sid <> EmptyString -> Js.str_truthy (Some sid) = true.
Proof.
  intros H. simpl. by destruct (String.eqb_spec sid EmptyString).
Qed.

(** [clearAuthData] removes a record exactly when its removal is accepted;
    both removals are attempted. *)
Lemma clearAuthData_run d :
  let r1 := removeItem_rejects env (clock d) StorageOps.SPOTIFY_ID in
  let r2 := removeItem_rejects env (S (clock d)) StorageOps.USER_DATA in
  let m1 := if r1 then asyncStorage d else delete StorageOps.SPOTIFY_ID (asyncStorage d) in
  let m2 := if r2 then m1 else delete StorageOps.USER_DATA m1 in
  StorageOps.clearAuthData env d =
  (if r1 || r2 then Rejected StorageError else Resolved tt,
   {| asyncStorage := m2; clock := S (S (clock d)) |}).
Proof.
  unfold StorageOps.clearAuthData, Promise_all2, StorageOps.removeStoredSpotifyId,
    StorageOps.removeStoredUser, AsyncStorage.removeItem.
  destruct (removeItem_rejects env (clock d) StorageOps.SPOTIFY_ID); simpl;
    destruct (removeItem_rejects env (S (clock d)) StorageOps.USER_DATA); reflexivity.
Qed.

Lemma clearAuthData_clears d :
  removals_succeed env ->
  fst (StorageOps.clearAuthData env d) = Resolved tt /\
  storage_cleared (snd (StorageOps.clearAuthData env d)).
Proof.
  intros H. rewrite clearAuthData_run. rewrite !H. simpl. split; [done|].
  split; simpl.
  - rewrite lookup_delete_ne by done. apply lookup_delete_eq.
  - apply lookup_delete_eq.
Qed.

(** What [initializeAuth] does with a persisted pair, by the outcome of the
    profile request and of the write of the fresh user record. *)
Lemma initializeAuth_with_pair w sid v :
  persisted_pair env (device w) sid v ->
  let t := clock (device w) in
  let verified :=
    response <- io (ApiClient.getMe env sid) ;;
    io (StorageOps.setStoredUser env (toStoredUser response)) ;;;
    setState (fun _ => signedIn (toStoredUser response) sid (Api.partnerId response)) in
  let invalid := io (StorageOps.clearAuthData env) ;;; setState (fun _ => signedOut) in
  initializeAuth env w =
  try_catch (try_catch verified (fun _ => invalid))
    (fun _ => console_log "Auth initialization error:" ;;; setState (fun _ => signedOut))
    (set_device (tick (tick (device w))) w).
Proof.
  intros (Hid & Hne & Hu & Hv). simpl.
  unfold initializeAuth.
  unfold try_catch at 1 3. unfold bind at 1 5.
  rewrite io_run. rewrite Hid. rewrite getStoredSpotifyId_run. cbn [snd].
  unfold bind at 1 4. rewrite io_run. cbn [device set_device].
  rewrite Hu, getStoredUser_device. cbn [snd].
  rewrite (str_truthy_Some _ Hne), Hv. cbn [andb].
  reflexivity.
Qed.

End Session.

(** C1 (as amended).  For every persisted (identity, user) pair read at
    startup, [initializeAuth] resolves with a state that is not loading, and
    that state is authenticated exactly when the profile request for that
    identity succeeds and the fresh user record is written to storage.  In
    that case the state holds the fetched profile and partner id.  Otherwise
    the state is the signed-out state, and both persisted records are gone
    provided the store accepts removals. *)
Theorem initializeAuth_persisted_pair (env : Env) (w : World) (sid : string) (v : Js.json) :
  persisted_pair env (device w) sid v ->
  let t := clock (device w) in
  let fetched := auth_me env (S (S t)) sid in
  let written := negb (setItem_rejects env (S (S (S t))) StorageOps.USER_DATA) in
  let w' := snd (initializeAuth env w) in
  fst (initializeAuth env w) = Resolved tt /\
  isLoading (state w') = false /\
  (isAuthenticated (state w') = true <-> is_Some fetched /\ written = true) /\
  (forall response,
     fetched = Some response -> written = true ->
     state w' = signedIn (toStoredUser response) sid (Api.partnerId response)) /\
  (isAuthenticated (state w') = false ->
   state w' = signedOut /\
   (removals_succeed env -> storage_cleared (device w'))).
Proof.
  intros Hp t fetched written w'.
  subst w'. rewrite (initializeAuth_with_pair env w sid v Hp).
  subst fetched written t. cbv zeta.
  unfold try_catch, bind, io, zoom, ApiClient.getMe, StorageOps.setStoredUser,
    AsyncStorage.setItem, setState, console_log.
  cbn [device set_device clock tick].
  destruct (auth_me env (S (S (clock (device w)))) sid) as [response|] eqn:Hme;
    cbn [device set_device clock tick].
  - destruct (setItem_rejects env (S (S (S (clock (device w))))) StorageOps.USER_DATA)
      eqn:Hset; cbn [device set_device clock tick negb].
    + pose proof (clearAuthData_clears env (tick (tick (tick (tick (device w)))))) as Hc.
      destruct (StorageOps.clearAuthData env (tick (tick (tick (tick (device w))))))
        as [[[]|e] d'];
        cbn [fst snd state isLoading isAuthenticated signedOut device set_device] in *.
      all: conjs; try done.
      all: try match goal with |- _ <-> _ => split; [done | by intros [_ ?]] end.
      all: intros _; split; [done|]; intros Hr; apply Hc, Hr.
    + cbn [fst snd state isLoading isAuthenticated signedIn].
      conjs; try done.
      all: try match goal with |- _ <-> _ => split; [by eauto | done] end.
      intros r [= <-] _. reflexivity.
  - pose proof (clearAuthData_clears env (tick (tick (tick (device w))))) as Hc.
    destruct (StorageOps.clearAuthData env (tick (tick (tick (device w)))))
      as [[[]|e] d'];
      cbn [fst snd state isLoading isAuthenticated signedOut device set_device] in *.
    all: conjs; try done.
    all: try match goal with |- _ <-> _ => split; [done | by intros [[? ?] _]] end.
    all: intros _; split; [done|]; intros Hr; apply Hc, Hr.
Qed.

Lemma paired_device_pair (env : Env) :
  getItem_rejects env 0 StorageOps.SPOTIFY_ID = false ->
  getItem_rejects env 1 StorageOps.USER_DATA = false ->
  JSON_parse env Sample.user_text = Some (Js.JObject [("id", Js.JString "u1")]) ->
  persisted_pair env Sample.paired_device "u1" (Js.JObject [("id", Js.JString "u1")]).
Proof.
  intros H0 H1 Hp. unfold persisted_pair.
  rewrite getStoredSpotifyId_run. cbn [clock Sample.paired_device]. rewrite H0.
  split; [reflexivity|]. split; [done|]. split; [|reflexivity].
  erewrite getStoredUser_parsed; [reflexivity|exact H1|reflexivity|done|exact Hp].
Qed.

(** The theorem at work: [u1] is persisted, the backend answers with partner
    [u2], and the session starts authenticated with that partner. *)
Lemma initializeAuth_persisted_pair_witness :
  let env := Sample.env EmptyString in
  let w := initialWorld Sample.paired_device in
  persisted_pair env (device w) "u1" (Js.JObject [("id", Js.JString "u1")]) /\
  isAuthenticated (state (snd (initializeAuth env w))) = true /\
  partnerId (state (snd (initializeAuth env w))) = Some "u2".
Proof.
  intros env w.
  assert (Hp : persisted_pair env (device w) "u1" (Js.JObject [("id", Js.JString "u1")])).
  { apply paired_device_pair; reflexivity. }
  split; [exact Hp|].
  destruct (initializeAuth_persisted_pair env w "u1" _ Hp) as (_ & _ & _ & Hin & _).
  rewrite (Hin (Sample.profile "u1" (Some "u2"))); [split; reflexivity|reflexivity|reflexivity].
Defined.

(** C1, the claim as stated, fails in two ways.  The profile request
    succeeds but the store rejects the write of the fresh record: the session
    ends unauthenticated.  The profile request fails and the store rejects
    the removals: the session ends unauthenticated with both records still
    in storage. *)
Lemma initialize_as_specified_fails :
  ~ initialize_as_specified (Sample.read_only (Sample.env EmptyString))
      (initialWorld Sample.paired_device) /\
  ~ initialize_as_specified (Sample.offline (Sample.read_only (Sample.env EmptyString)))
      (initialWorld Sample.paired_device).
Proof.
  split; intros H.
  - destruct (H "u1" (Js.JObject [("id", Js.JString "u1")])) as [[_ Hauth] _].
    { apply paired_device_pair; reflexivity. }
    assert (Hf : false = true); [|discriminate Hf].
    apply Hauth. by eexists.
  - destruct (H "u1" (Js.JObject [("id", Js.JString "u1")])) as [_ Hclear].
    { apply paired_device_pair; reflexivity. }
    destruct Hclear as [_ [Hid _]]; [reflexivity|].
    vm_compute in Hid. discriminate Hid.
Qed.

(** The two runs behind the counterexample, evaluated. *)
Example initializeAuth_write_rejected :
  let env := Sample.read_only (Sample.env EmptyString) in
  let w' := snd (initializeAuth env (initialWorld Sample.paired_device)) in
  is_Some (auth_me env 2 "u1") /\ state w' = signedOut.
Proof. split; [by eexists | reflexivity]. Qed.

Example initializeAuth_removal_rejected :
  let env := Sample.offline (Sample.read_only (Sample.env EmptyString)) in
  let w' := snd (initializeAuth env (initialWorld Sample.paired_device)) in
  auth_me env 2 "u1" = None /\ state w' = signedOut /\
  asyncStorage (device w') !! StorageOps.SPOTIFY_ID = Some "u1".
Proof. split; [reflexivity|]. split; [reflexivity|]. vm_compute. reflexivity. Qed.

(** [logout] on a store that accepts removals.  From every starting state,
    with every identity the callback may have captured, and whether the
    server-side call succeeds or throws, [logout] resolves, the state is
    the signed-out state (not authenticated, no identity, no user, no
    partner) and both persisted records are gone. *)
Lemma logout_signs_out (env : Env) (state_spotifyId : option string) (w : World) :
  removals_succeed env ->
  let w' := snd (logout env state_spotifyId w) in
  fst (logout env state_spotifyId w) = Resolved tt /\
  state w' = signedOut /\
  storage_cleared (device w').
Proof.
  intros H. cbv zeta.
  unfold logout, try_catch, bind, ret, io, zoom, ApiClient.logout, setState,
    console_log.
  cbn [device set_device clock tick state].
  destruct state_spotifyId as [sid|]; [destruct (Js.str_truthy (Some sid))|].
  all: cbn [device set_device clock tick state fst snd].
  1: destruct (auth_logout env (clock (device w)) sid).
  all: cbn [device set_device clock tick state fst snd].
  all: repeat match goal with
       | |- context [StorageOps.clearAuthData ?e ?d] =>
           let Hc := fresh "Hc" in
           pose proof (clearAuthData_clears e d H) as Hc;
           destruct (StorageOps.clearAuthData e d) as [[[]|?] ?];
           cbn [fst snd] in Hc; destruct Hc as [Hc ?]; try discriminate Hc;
           cbn [device set_device clock tick state fst snd]
       end.
  all: conjs; done.
Qed.

(** With the backend unreachable. *)
Lemma logout_signs_out_witness :
  let env := Sample.offline (Sample.env EmptyString) in
  removals_succeed env /\
  auth_logout env 0 "u1" = false /\
  state (snd (logout env (Some "u1") signed_in_world)) = signedOut /\
  storage_cleared (device (snd (logout env (Some "u1") signed_in_world))).
Proof.
  intros env.
  assert (H : removals_succeed env) by (intros t key; reflexivity).
  split; [exact H|]. split; [reflexivity|].
  exact (proj2 (logout_signs_out env (Some "u1") signed_in_world H)).
Defined.

(** C2.  What [logout] does when the store rejects the removals.  Both
    blocks of [logout] await [clearAuthData] before they call [setState]:
    when [clearAuthData] rejects in the [try] block the [catch] block runs
    it again, and when it rejects there too [logout] itself rejects before
    it reaches the [setState] that signs out.  So from every starting
    state, with every captured identity and whatever the server-side call
    does, [logout] rejects with the store's error and the state is the
    starting state with [isLoading] set: a session that was authenticated
    still is, and stays loading. *)
Theorem logout_rejected_removal_keeps_session (env : Env)
  (state_spotifyId : option string) (w : World) :
  (forall d, fst (StorageOps.clearAuthData env d) = Rejected StorageError) ->
  let r := logout env state_spotifyId w in
  fst r = Rejected StorageError /\
  state (snd r) = with_isLoading true (state w) /\
  isAuthenticated (state (snd r)) = isAuthenticated (state w) /\
  isLoading (state (snd r)) = true.
Proof.
  intros H. cbv zeta.
  unfold logout, try_catch, bind, ret, io, zoom, ApiClient.logout, setState,
    console_log.
  cbn [device set_device clock tick state].
  destruct state_spotifyId as [sid|]; [destruct (Js.str_truthy (Some sid))|].
  all: cbn [device set_device clock tick state fst snd].
  1: destruct (auth_logout env (clock (device w)) sid).
  all: cbn [device set_device clock tick state fst snd].
  all: repeat match goal with
       | |- context [StorageOps.clearAuthData ?e ?d] =>
           let Hc := fresh "Hc" in
           pose proof (H d) as Hc;
           destruct (StorageOps.clearAuthData e d) as [[[]|?] ?];
           cbn [fst] in Hc; try discriminate Hc; injection Hc as ->;
           cbn [device set_device clock tick state fst snd]
       end.
  all: conjs; done.
Qed.

(** The session of [u1], the backend reachable, a store that rejects
    removals: after [logout] the session is still authenticated, and
    loading. *)
Lemma logout_rejected_removal_keeps_session_witness :
  let env := Sample.read_only (Sample.env EmptyString) in
  let r := logout env (Some "u1") signed_in_world in
  (forall d, fst (StorageOps.clearAuthData env d) = Rejected StorageError) /\
  auth_logout env 0 "u1" = true /\
  isAuthenticated (state signed_in_world) = true /\
  fst r = Rejected StorageError /\
  isAuthenticated (state (snd r)) = true /\
  isLoading (state (snd r)) = true.
Proof.
  intros env r.
  assert (H : forall d, fst (StorageOps.clearAuthData env d) = Rejected StorageError)
    by (intros d; reflexivity).
  destruct (logout_rejected_removal_keeps_session env (Some "u1") signed_in_world H)
    as (H1 & _ & H3 & H4).
  split; [exact H|]. split; [reflexivity|]. split; [reflexivity|].
  split; [exact H1|]. split; [exact H3 | exact H4].
Defined.

(** So the claim about [logout], as the specification states it, does not
    hold there. *)
Lemma logout_as_specified_fails :
  ~ logout_as_specified (Sample.read_only (Sample.env EmptyString)) (Some "u1")
      signed_in_world.
Proof.
  intros (Hauth & _). vm_compute in Hauth. discriminate Hauth.
Qed.

Example logout_removal_rejected :
  let env := Sample.read_only (Sample.env EmptyString) in
  let r := logout env (Some "u1") signed_in_world in
  fst r = Rejected StorageError /\
  state (snd r) = with_isLoading true (signedIn Sample.stored_u1 "u1" (Some "u2")) /\
  asyncStorage (device (snd r)) = asyncStorage Sample.paired_device.
Proof. split; [reflexivity|]. split; reflexivity. Qed.

(** [initializeAuth], in the same situation, signs out in memory: its outer
    [catch] calls [setState] without awaiting the store again. *)
Example initializeAuth_signs_out_all_the_same :
  let env := Sample.offline (Sample.read_only (Sample.env EmptyString)) in
  let r := initializeAuth env (initialWorld Sample.paired_device) in
  fst r = Resolved tt /\ state (snd r) = signedOut.
Proof. split; reflexivity. Qed.

(** ** The session invariant *)

Lemma coherent_invariant s : coherent s -> invariant s = true.
Proof.
  unfold coherent, invariant.
  destruct (isAuthenticated s).
  - intros [H1 H2]. by rewrite !bool_decide_eq_true_2.
  - intros ->. reflexivity.
Qed.

Section Preservation.
Variable P : World -> Prop.

Lemma preserves_ret {A} (a : A) : preserves P (ret a).
Proof. by intros w. Qed.

Lemma preserves_throw {A} e : preserves P (@throw World A e).
Proof. by intros w. Qed.

Lemma preserves_bind {A B} (m : SE World A) (k : A -> SE World B) :
  preserves P m -> (forall a, preserves P (k a)) -> preserves P (bind m k).
Proof.
  intros Hm Hk w Hw. unfold bind. specialize (Hm w Hw).
  destruct (m w) as [[a|e] w1]; [by apply Hk | exact Hm].
Qed.

Lemma preserves_try_catch {A} (m : SE World A) (h : Error -> SE World A) :
  preserves P m -> (forall e, preserves P (h e)) -> preserves P (try_catch m h).
Proof.
  intros Hm Hh w Hw. unfold try_catch. specialize (Hm w Hw).
  destruct (m w) as [[a|e] w1]; [exact Hm | by apply Hh].
Qed.

Lemma preserves_try_finally {A} (m : SE World A) (fin : SE World unit) :
  preserves P m -> preserves P fin -> preserves P (try_finally m fin).
Proof.
  intros Hm Hf w Hw. unfold try_finally. specialize (Hm w Hw).
  destruct (m w) as [r w1]. specialize (Hf w1 Hm).
  by destruct (fin w1) as [[[]|e] w2].
Qed.

End Preservation.

Lemma preserves_io {A} (m : SE Device A) : preserves all_coherent (io m).
Proof.
  intros w Hw. rewrite io_run. exact Hw.
Qed.

Lemma preserves_console_log msg : preserves all_coherent (console_log msg).
Proof. by intros w Hw. Qed.

Lemma preserves_setState f :
  (forall s, coherent s -> coherent (f s)) -> preserves all_coherent (setState f).
Proof.
  intros Hf w [Hs Hr]. split; cbn.
  - by apply Hf.
  - apply Forall_app. split; [exact Hr|]. constructor; [by apply Hf | constructor].
Qed.

Lemma coherent_signedOut : coherent signedOut.
Proof. reflexivity. Qed.

Lemma coherent_signedIn u sid p : coherent (signedIn u sid p).
Proof. by split. Qed.

Lemma coherent_with_isLoading b s : coherent s -> coherent (with_isLoading b s).
Proof. by unfold coherent. Qed.

Lemma coherent_with_user u p s : coherent s -> coherent (with_user u p s).
Proof.
  unfold coherent; cbn. destruct (isAuthenticated s); [|done].
  by intros [H _].
Qed.

Create HintDb session.
#[local] Hint Resolve preserves_ret preserves_throw preserves_io
  preserves_console_log coherent_signedOut coherent_signedIn
  coherent_with_isLoading coherent_with_user : session.

(** Walk down the structure of an operation. *)
Ltac preserve :=
  repeat first
    [ apply preserves_bind; [|intros ?]
    | apply preserves_try_catch; [|intros ?]
    | apply preserves_try_finally
    | apply preserves_setState; intros ? ?
    | match goal with
      | |- preserves _ (match ?x with _ => _ end) => destruct x
      end
    | solve [auto with session] ].

Section SessionInvariant.
Variable env : Env.

Lemma preserves_initializeAuth : preserves all_coherent (initializeAuth env).
Proof. unfold initializeAuth. preserve. Qed.

Lemma preserves_handleAuthSuccess sid : preserves all_coherent (handleAuthSuccess env sid).
Proof. unfold handleAuthSuccess. preserve. Qed.

Lemma preserves_login : preserves all_coherent (login env).
Proof.
  pose proof preserves_handleAuthSuccess.
  unfold login, openAuthSession, searchParam. preserve.
Qed.

Lemma preserves_logout captured : preserves all_coherent (logout env captured).
Proof. unfold logout. preserve. Qed.

Lemma preserves_refreshUser captured : preserves all_coherent (refreshUser env captured).
Proof. unfold refreshUser. preserve. Qed.

Lemma preserves_perform op : preserves all_coherent (perform env op).
Proof.
  destruct op; cbn.
  - apply preserves_initializeAuth.
  - apply preserves_login.
  - apply preserves_logout.
  - apply preserves_refreshUser.
Qed.

Lemma session_run_coherent ops w : all_coherent w -> all_coherent (session_run env ops w).
Proof.
  revert w. induction ops as [|op ops IH]; intros w Hw; [exact Hw|].
  cbn. apply IH. by apply preserves_perform.
Qed.

End SessionInvariant.

(** C5.  [isAuthenticated == (spotifyId != null && user != null)] holds in
    the initial state, and after any sequence of [initialize], [login],
    [logout] and [refreshUser], in every environment (each request or
    storage call succeeding or failing), it holds in the state reached and
    in every state that any of the operations gave to [setState] on the
    way. *)
Theorem session_invariant (env : Env) (ops : list SessionOp) (d : Device) :
  let w := session_run env ops (initialWorld d) in
  invariant initialState = true /\
  invariant (state w) = true /\
  Forall (fun s => invariant s = true) (renders w).
Proof.
  cbv zeta.
  destruct (session_run_coherent env ops (initialWorld d)) as [Hs Hr].
  { split; [reflexivity | constructor]. }
  split; [reflexivity|]. split; [by apply coherent_invariant|].
  eapply Forall_impl; [exact Hr|]. intros s. apply coherent_invariant.
Qed.

(** The invariant alone is not inductive: [refreshUser]'s update would break
    it from a state that holds an identity without a user.  No such state
    is reachable, which is what [coherent] records. *)
Example invariant_needs_coherence :
  let s := {| isLoading := false; isAuthenticated := false; user := None;
              spotifyId := Some "u1"; partnerId := None |} in
  invariant s = true /\ invariant (with_user Sample.stored_u1 None s) = false.
Proof. split; reflexivity. Qed.

(** ** [refreshUser] *)

(** C8.  [refreshUser] never rejects and never changes [isLoading],
    [isAuthenticated] or [spotifyId].  Without an identity (null or empty)
    it changes nothing at all.  When the profile request fails, the state
    and the stored records are as before.  The state changes only when the
    request succeeded, and then only by the user and partner id taken from
    the response. *)
Theorem refreshUser_frame (env : Env) (state_spotifyId : option string) (w : World) :
  let w' := snd (refreshUser env state_spotifyId w) in
  fst (refreshUser env state_spotifyId w) = Resolved tt /\
  isLoading (state w') = isLoading (state w) /\
  isAuthenticated (state w') = isAuthenticated (state w) /\
  spotifyId (state w') = spotifyId (state w) /\
  (Js.str_truthy state_spotifyId = false -> w' = w) /\
  (forall sid,
     state_spotifyId = Some sid ->
     auth_me env (clock (device w)) sid = None ->
     state w' = state w /\
     asyncStorage (device w') = asyncStorage (device w)) /\
  (state w' = state w \/
   exists sid response,
     state_spotifyId = Some sid /\
     auth_me env (clock (device w)) sid = Some response /\
     state w' = with_user (toStoredUser response) (Api.partnerId response) (state w)).
Proof.
  cbv zeta. unfold refreshUser.
  destruct state_spotifyId as [sid|]; [|by conjs; auto].
  destruct (Js.str_truthy (Some sid)) eqn:Ht; [|by conjs; auto].
  unfold try_catch, bind, io, zoom, ApiClient.getMe, StorageOps.setStoredUser,
    AsyncStorage.setItem, setState, console_log.
  cbn [device set_device clock tick].
  destruct (auth_me env (clock (device w)) sid) as [response|] eqn:Hme;
    cbn [device set_device clock tick fst snd state].
  - destruct (setItem_rejects env (S (clock (device w))) StorageOps.USER_DATA);
      cbn [device set_device clock tick fst snd state].
    + conjs; auto; try done.
    + conjs; try done.
      * intros sid' [= <-] Hnone. congruence.
      * right. by exists sid, response.
  - conjs; auto; try done.
Qed.

Example refreshUser_without_identity :
  refreshUser (Sample.env EmptyString) None (initialWorld Sample.paired_device)
  = (Resolved tt, initialWorld Sample.paired_device).
Proof. reflexivity. Qed.

Example refreshUser_offline :
  let r := refreshUser (Sample.offline (Sample.env EmptyString)) (Some "u1") signed_in_world in
  fst r = Resolved tt /\ state (snd r) = state signed_in_world.
Proof. split; reflexivity. Qed.

Example refreshUser_new_partner :
  let r := refreshUser (Sample.env EmptyString) (Some "u1")
             {| device := Sample.paired_device;
                state := signedIn Sample.stored_u1 "u1" None;
                renders := []; console := [] |} in
  partnerId (state (snd r)) = Some "u2" /\ isAuthenticated (state (snd r)) = true.
Proof. split; reflexivity. Qed.

(** ** [login] when the callback carries no identity *)

(** C4 (what the code does).  When the authorization session succeeds with
    a callback URL that has no [spotifyId] parameter, [login] resolves: no
    error reaches the caller.  It performs no request and writes nothing to
    storage; the state only goes through loading and back; the one trace is
    a line on the console. *)
Theorem login_without_identity_is_silent (env : Env) (w : World) (url : string) :
  openAuthSessionAsync env (clock (device w)) (ApiClient.getLoginUrl env)
    (Linking_createURL env "/auth/callback") = Some (WebBrowser.Success url) ->
  url <> EmptyString ->
  URL_searchParams_get env url "spotifyId" = Some None ->
  login env w =
  (Resolved tt,
   {| device := tick (device w);
      state := with_isLoading false (state w);
      renders := renders w ++ [with_isLoading true (state w);
                               with_isLoading false (state w)];
      console := console w ++ ["Auth result URL:"] |}).
Proof.
  intros Hopen Hurl Hparam.
  unfold login, try_finally, try_catch, bind, openAuthSession, searchParam, io, zoom,
    setState.
  cbn [device set_device clock tick]. rewrite Hopen.
  rewrite (str_truthy_Some _ Hurl). rewrite Hparam.
  cbn. rewrite <- app_assoc. reflexivity.
Qed.

(** The failing run: the browser comes back to [echoes://auth/callback]. *)
Lemma login_without_identity_is_silent_witness :
  let env := Sample.env "echoes://auth/callback" in
  let w := {| device := Sample.empty_device; state := signedOut;
              renders := []; console := [] |} in
  fst (login env w) = Resolved tt /\
  state (snd (login env w)) = signedOut /\
  asyncStorage (device (snd (login env w))) = ∅ /\
  console (snd (login env w)) = ["Auth result URL:"].
Proof.
  intros env w.
  rewrite (login_without_identity_is_silent env w "echoes://auth/callback");
    [|reflexivity|done|reflexivity].
  conjs; reflexivity.
Defined.

(** With the identity in the callback the same flow signs in. *)
Example login_with_identity :
  let env := Sample.env "echoes://auth/callback?spotifyId=u1" in
  let w := {| device := Sample.empty_device; state := signedOut;
              renders := []; console := [] |} in
  state (snd (login env w)) = signedIn Sample.stored_u1 "u1" (Some "u2").
Proof. reflexivity. Qed.

(** ** The presence and sync channel *)

Module Presence.
Import SocketContext Screens.
Local Open Scope list_scope.

(** *** Dispatch and delivery *)

Lemma run_listener_spec e h p :
  run_listener e h p =
  {| sockets := sockets p; socketRef := socketRef p;
     isConnected := isConnected (run_listener e h p);
     isPartnerOnline := isPartnerOnline (run_listener e h p);
     partnerStatus := partnerStatus (run_listener e h p);
     closures := closures p; cleanup := cleanup p; emitted := emitted p;
     calls := calls p ++ call_of e h |}.
Proof.
  destruct p; destruct h, e; cbn; rewrite ?app_nil_r; try reflexivity.
  all: by destruct (isListening data).
Qed.

Lemma dispatch_spec e hs p :
  dispatch e hs p =
  {| sockets := sockets p; socketRef := socketRef p;
     isConnected := isConnected (dispatch e hs p);
     isPartnerOnline := isPartnerOnline (dispatch e hs p);
     partnerStatus := partnerStatus (dispatch e hs p);
     closures := closures p; cleanup := cleanup p; emitted := emitted p;
     calls := calls p ++ calls_of e hs |}.
Proof.
  revert p. induction hs as [|h hs IH]; intros p.
  - destruct p; cbn. by rewrite app_nil_r.
  - cbn [dispatch fold_left]. fold (dispatch e hs (run_listener e h p)).
    rewrite IH. rewrite (run_listener_spec e h p) at 1 2 6 7 8 9.
    cbn. by rewrite <- app_assoc.
Qed.

Lemma calls_of_presence e hs :
  match e with SessionSync _ | SessionJoined _ _ => False | _ => True end ->
  calls_of e hs = [].
Proof.
  intros He. unfold calls_of. induction hs as [|h hs IH]; [reflexivity|].
  cbn. rewrite IH. by destruct h, e.
Qed.

Lemma lookup_update_socket i f p j :
  sockets (update_socket i f p) !! j =
  if decide (i = j) then f <$> sockets p !! j else sockets p !! j.
Proof.
  unfold update_socket. destruct (sockets p !! i) as [s|] eqn:Hi; cbn.
  - case_decide as Hij.
    + subst j. rewrite Hi. cbn. apply list_lookup_insert_eq.
      by eapply lookup_lt_Some.
    + by apply list_lookup_insert_ne.
  - case_decide as Hij; [|reflexivity]. subst j. by rewrite Hi.
Qed.

Lemma update_socket_last f l x p :
  update_socket (length l) f (set_sockets (l ++ [x]) p) = set_sockets (l ++ [f x]) p.
Proof.
  unfold update_socket. cbn [sockets set_sockets].
  rewrite lookup_app_r by lia. rewrite Nat.sub_diag. cbn.
  unfold set_sockets; cbn. f_equal.
  rewrite insert_app_r_alt by lia. by rewrite Nat.sub_diag.
Qed.

(** *** What the provider's functions compute *)

Lemma connectSocket_connected spotifyId p :
  current_connected p = true -> connectSocket spotifyId p = p.
Proof. intros H. unfold connectSocket. by rewrite H. Qed.

Lemma connectSocket_opens spotifyId p :
  current_connected p = false ->
  connectSocket spotifyId p =
  set_socketRef (Some (length (sockets p)))
    (set_sockets (sockets p ++ [fresh_socket spotifyId]) p).
Proof.
  intros H. unfold connectSocket, io, socket_on. rewrite H.
  by rewrite !update_socket_last.
Qed.

Lemma disconnectSocket_idle p : socketRef p = None -> disconnectSocket p = p.
Proof. intros H. unfold disconnectSocket. by rewrite H. Qed.

Lemma disconnectSocket_closes p i s :
  socketRef p = Some i ->
  sockets p !! i = Some s ->
  disconnectSocket p =
  {| sockets := <[i := closed s]> (sockets p); socketRef := None;
     isConnected := false; isPartnerOnline := false; partnerStatus := None;
     closures := closures p; cleanup := cleanup p; emitted := emitted p;
     calls := calls p |}.
Proof.
  intros Hr Hs. unfold disconnectSocket, socket_disconnect, update_socket.
  rewrite Hr, Hs.
  destruct (connected s && active s); [rewrite dispatch_spec|]; cbn.
  - rewrite calls_of_presence by done. by rewrite app_nil_r.
  - reflexivity.
Qed.

Lemma disconnectSocket_socketRef p : socketRef (disconnectSocket p) = None.
Proof.
  unfold disconnectSocket. destruct (socketRef p) eqn:H; [reflexivity | exact H].
Qed.

Lemma deliver_open i e p s :
  sockets p !! i = Some s -> active s = true ->
  deliver i e p =
  dispatch e (listeners_of (event_name e) s)
    (set_sockets (<[i := flagged e s]> (sockets p)) p).
Proof.
  intros Hs Ha. unfold deliver, update_socket. rewrite Hs, Ha.
  destruct e as [|[]| | | | |]; cbn [flagged]; try reflexivity.
  all: rewrite list_insert_id by done; by destruct p.
Qed.

Lemma deliver_closed i e p :
  (forall s, sockets p !! i = Some s -> active s = false) -> deliver i e p = p.
Proof.
  intros H. unfold deliver. destruct (sockets p !! i) as [s|]; [|reflexivity].
  by rewrite (H s).
Qed.

(** *** The invariant of a mounted provider *)

Lemma wired_mono n m s : n <= m -> wired n s -> wired m s.
Proof.
  intros Hle (extra & Hl & Hx). exists extra. split; [exact Hl|].
  eapply Forall_impl; [exact Hx|].
  intros [ev h]; destruct h; cbn; try done; intros [? ?]; (split; [done|lia]).
Qed.

Lemma wired_fresh n spotifyId : wired n (fresh_socket spotifyId).
Proof. exists []. split; [reflexivity | constructor]. Qed.

Lemma wired_flagged n e s : wired n s -> wired n (flagged e s).
Proof. by destruct e as [|[]| | | | |]. Qed.

Lemma wired_closed n s : wired n s -> wired n (closed s).
Proof. done. Qed.

Lemma listeners_of_wired n s event :
  wired n s ->
  exists extra,
    Forall (session_registration n) extra /\
    listeners_of event s =
    (listeners_of event (with_listeners base_listeners s)
     ++ map snd (filter (fun r => fst r = event) extra))%list.
Proof.
  intros (extra & Hl & Hx). exists extra. split; [exact Hx|].
  unfold listeners_of. rewrite Hl. cbn [listeners with_listeners].
  by rewrite filter_app, map_app.
Qed.

Lemma calls_of_registrations n e extra event :
  Forall (session_registration n) extra ->
  Forall (fun c => call_closure c < n)
    (calls_of e (map snd (filter (fun r => fst r = event) extra))).
Proof.
  induction 1 as [|[ev h] extra Hr _ IH]; [constructor|].
  rewrite filter_cons. case_decide; [|exact IH].
  cbn. apply Forall_app. split; [|exact IH].
  destruct h, e; cbn in *; try done; constructor; try done; cbn; lia.
Qed.

Lemma calls_of_wired n e s :
  wired n s ->
  Forall (fun c => call_closure c < n) (calls_of e (listeners_of (event_name e) s)).
Proof.
  intros Hw. destruct (listeners_of_wired n s (event_name e) Hw) as (extra & Hx & ->).
  unfold calls_of. rewrite flat_map_app. apply Forall_app. split.
  - by destruct e; cbn; repeat case_decide; cbn.
  - by apply calls_of_registrations.
Qed.

Lemma tidy_initial : tidy initial /\ settled initial.
Proof.
  split; [split|]; done.
Qed.

Lemma tidy_set_cleanup b p : tidy p -> tidy (set_cleanup b p).
Proof. intros [H1 H2 H3 H4 H5 H6]. by split. Qed.

Lemma tidy_quiet p i s :
  tidy p -> socketRef p = None -> sockets p !! i = Some s -> active s = false.
Proof.
  intros Ht Hr Hs. destruct (active s) eqn:Ha; [|reflexivity].
  pose proof (tidy_active p Ht i s Hs Ha). congruence.
Qed.

(** With no socket held the three values are the defaults. *)
Lemma tidy_unheld p :
  tidy p -> socketRef p = None ->
  isConnected p = false /\ isPartnerOnline p = false /\ partnerStatus p = None.
Proof.
  intros Ht Hr. apply (tidy_idle p Ht). intros i s. by apply tidy_quiet.
Qed.

Lemma tidy_disconnectSocket p : tidy p -> tidy (disconnectSocket p).
Proof.
  intros Ht. destruct (socketRef p) as [i|] eqn:Hr;
    [|by rewrite disconnectSocket_idle].
  destruct (tidy_ref p Ht i Hr) as (s & Hs).
  rewrite (disconnectSocket_closes p i s Hr Hs).
  pose proof (lookup_lt_Some _ _ _ Hs) as Hlt.
  split; cbn.
  - intros j s' Hj Haj. destruct (decide (i = j)) as [->|Hne].
    + rewrite list_lookup_insert_eq in Hj by done. by inversion Hj; subst.
    + rewrite list_lookup_insert_ne in Hj by done.
      pose proof (tidy_active p Ht j s' Hj Haj). congruence.
  - done.
  - intros j s' Hj Hcj. destruct (decide (i = j)) as [->|Hne].
    + rewrite list_lookup_insert_eq in Hj by done. by inversion Hj; subst.
    + rewrite list_lookup_insert_ne in Hj by done. by eapply tidy_connected.
  - done.
  - intros j s' Hj. destruct (decide (i = j)) as [->|Hne].
    + rewrite list_lookup_insert_eq in Hj by done. inversion Hj; subst.
      apply wired_closed. by eapply tidy_wired.
    + rewrite list_lookup_insert_ne in Hj by done. by eapply tidy_wired.
  - by apply tidy_calls.
Qed.

Lemma current_connected_idle p : socketRef p = None -> current_connected p = false.
Proof. intros H. unfold current_connected. by rewrite H. Qed.

Lemma tidy_connectSocket spotifyId p :
  tidy p -> socketRef p = None -> tidy (connectSocket spotifyId p).
Proof.
  intros Ht Hr. rewrite connectSocket_opens by by apply current_connected_idle.
  split; cbn.
  - intros j s Hj Ha. apply lookup_app_Some in Hj as [Hj|[Hge Hj]].
    + by rewrite (tidy_quiet p j s Ht Hr Hj) in Ha.
    + apply list_lookup_singleton_Some in Hj as [Hj _].
      f_equal. lia.
  - intros j [= <-]. exists (fresh_socket spotifyId).
    rewrite lookup_app_r by lia. by rewrite Nat.sub_diag.
  - intros j s Hj Hc. apply lookup_app_Some in Hj as [Hj|[Hge Hj]].
    + by eapply tidy_connected.
    + apply list_lookup_singleton_Some in Hj as [_ <-]. discriminate Hc.
  - intros H. specialize (H (length (sockets p)) (fresh_socket spotifyId)).
    rewrite lookup_app_r, Nat.sub_diag in H by lia. by specialize (H eq_refl).
  - intros j s Hj. apply lookup_app_Some in Hj as [Hj|[Hge Hj]].
    + by eapply tidy_wired.
    + apply list_lookup_singleton_Some in Hj as [_ <-]. apply wired_fresh.
  - by apply tidy_calls.
Qed.

Lemma tidy_run_cleanup p :
  tidy p -> settled p ->
  tidy (run_cleanup p) /\ socketRef (run_cleanup p) = None /\
  cleanup (run_cleanup p) = false.
Proof.
  intros Ht Hs. unfold run_cleanup. destruct (cleanup p) eqn:Hc.
  - split; [by apply tidy_set_cleanup, tidy_disconnectSocket|].
    split; [apply disconnectSocket_socketRef | reflexivity].
  - split; [exact Ht|]. split; [by apply Hs | exact Hc].
Qed.

Lemma tidy_effect a spotifyId p :
  tidy p -> settled p ->
  tidy (effect a spotifyId p) /\ settled (effect a spotifyId p).
Proof.
  intros Ht Hs. destruct (tidy_run_cleanup p Ht Hs) as (Ht' & Hr' & _).
  split; [|done].
  unfold effect. apply tidy_set_cleanup. unfold effect_body.
  destruct (a && Js.str_truthy spotifyId).
  - by apply tidy_connectSocket.
  - by apply tidy_disconnectSocket.
Qed.

Lemma tidy_unmount p :
  tidy p -> settled p -> tidy (unmount p) /\ settled (unmount p).
Proof.
  intros Ht Hs. destruct (tidy_run_cleanup p Ht Hs) as (Ht' & Hr' & Hc').
  split; [exact Ht' | by intros _].
Qed.

Lemma update_socket_spec i f p :
  update_socket i f p = set_sockets (sockets (update_socket i f p)) p.
Proof.
  unfold update_socket. destruct (sockets p !! i); [reflexivity | by destruct p].
Qed.

Lemma active_flagged e s : active (flagged e s) = active s && negb (closes e).
Proof. destruct e as [|[]| | | | |]; cbn; by rewrite ?andb_true_r, ?andb_false_r. Qed.

Lemma connected_flagged e s :
  connected (flagged e s) = true -> active s = true -> active (flagged e s) = true.
Proof. by destruct e as [|[]| | | | |]. Qed.

(** *** What an event does to the three values *)

Lemma dispatch_cons e h hs p :
  dispatch e (h :: hs) p = dispatch e hs (run_listener e h p).
Proof. reflexivity. Qed.

Lemma dispatch_app e hs1 hs2 p :
  dispatch e (hs1 ++ hs2) p = dispatch e hs2 (dispatch e hs1 p).
Proof. unfold dispatch. apply fold_left_app. Qed.

Lemma view_dispatch_registrations n e extra event p :
  Forall (session_registration n) extra ->
  view (dispatch e (map snd (filter (fun r => fst r = event) extra)) p) = view p.
Proof.
  intros Hx. revert p. induction Hx as [|[ev h] extra Hr _ IH]; intros p; [reflexivity|].
  rewrite filter_cons. case_decide; [|apply IH].
  cbn [map snd]. rewrite dispatch_cons, IH.
  destruct h; cbn in Hr; try done; by destruct e.
Qed.

Lemma view_set_sockets_listener e h l p :
  view (run_listener e h (set_sockets l p)) = view (run_listener e h p).
Proof. destruct h, e; cbn; try reflexivity; by destruct (isListening data). Qed.

Lemma view_set_sockets l p : view (set_sockets l p) = view p.
Proof. reflexivity. Qed.

(** On an open socket wired by the provider an event does to the three
    values what its one presence listener does, whatever consumers have
    registered. *)
Lemma deliver_view_wired n i e p s :
  wired n s -> sockets p !! i = Some s -> active s = true ->
  view (deliver i e p) = view (presence e p).
Proof.
  intros Hw Hs Ha. rewrite (deliver_open i e p s Hs Ha).
  destruct (listeners_of_wired _ s (event_name e) Hw) as (extra & Hx & ->).
  rewrite dispatch_app, (view_dispatch_registrations _ e extra _ _ Hx).
  destruct e; cbn [event_name presence];
    (* the listeners of the base table for this event *)
    match goal with
    | |- view (dispatch ?e (listeners_of ?n ?s) ?q) = _ =>
        let l := eval vm_compute in (map snd (filter (fun r => fst r = n) base_listeners)) in
        change (listeners_of n s) with l
    end;
    cbn [dispatch fold_left]; rewrite ?view_set_sockets_listener; reflexivity.
Qed.

Lemma deliver_sockets i e p s :
  sockets p !! i = Some s -> active s = true ->
  sockets (deliver i e p) = <[i := flagged e s]> (sockets p).
Proof.
  intros Hs Ha. by rewrite (deliver_open i e p s Hs Ha), dispatch_spec.
Qed.

Lemma deliver_frame i e p :
  socketRef (deliver i e p) = socketRef p /\
  cleanup (deliver i e p) = cleanup p /\
  closures (deliver i e p) = closures p /\
  emitted (deliver i e p) = emitted p.
Proof.
  destruct (sockets p !! i) as [s|] eqn:Hi;
    [destruct (active s) eqn:Ha|]; [|by rewrite deliver_closed; [|congruence]..].
  by rewrite (deliver_open i e p s Hi Ha), dispatch_spec.
Qed.

Lemma deliver_calls i e p s :
  sockets p !! i = Some s -> active s = true ->
  calls (deliver i e p) = calls p ++ calls_of e (listeners_of (event_name e) s).
Proof.
  intros Hs Ha. by rewrite (deliver_open i e p s Hs Ha), dispatch_spec.
Qed.

Lemma tidy_deliver i e p : tidy p -> tidy (deliver i e p).
Proof.
  intros Ht.
  destruct (sockets p !! i) as [s|] eqn:Hs;
    [destruct (active s) eqn:Ha|]; [|by rewrite deliver_closed; [|congruence]..].
  pose proof (tidy_active p Ht i s Hs Ha) as Hr.
  pose proof (lookup_lt_Some _ _ _ Hs) as Hlt.
  pose proof (deliver_view_wired _ i e p s (tidy_wired p Ht i s Hs) Hs Ha) as Hv.
  pose proof (deliver_sockets i e p s Hs Ha) as Hss.
  destruct (deliver_frame i e p) as (Hrr & _ & Hcl & _).
  split.
  - rewrite Hss, Hrr. intros j s' Hj Haj. destruct (decide (i = j)) as [->|Hne]; [done|].
    rewrite list_lookup_insert_ne in Hj by done. by eapply tidy_active.
  - rewrite Hss, Hrr. intros j Hj. assert (j = i) as -> by congruence.
    exists (flagged e s). by rewrite list_lookup_insert_eq.
  - rewrite Hss. intros j s' Hj Hcj. destruct (decide (i = j)) as [->|Hne].
    + rewrite list_lookup_insert_eq in Hj by done. inversion Hj; subst.
      by apply connected_flagged.
    + rewrite list_lookup_insert_ne in Hj by done. by eapply tidy_connected.
  - rewrite Hss. intros Hq. specialize (Hq i (flagged e s)).
    rewrite list_lookup_insert_eq in Hq by done. specialize (Hq eq_refl).
    rewrite active_flagged, Ha in Hq. destruct (closes e) eqn:He; [|discriminate Hq].
    destruct e as [|[]| | | | |]; try discriminate He.
    unfold view in Hv. by injection Hv as -> -> ->.
  - rewrite Hss, Hcl. intros j s' Hj. destruct (decide (i = j)) as [->|Hne].
    + rewrite list_lookup_insert_eq in Hj by done. inversion Hj; subst.
      apply wired_flagged. by eapply tidy_wired.
    + rewrite list_lookup_insert_ne in Hj by done. by eapply tidy_wired.
  - rewrite (deliver_calls i e p s Hs Ha), Hcl. apply Forall_app.
    split; [by apply tidy_calls|].
    apply calls_of_wired. by eapply tidy_wired.
Qed.

Lemma tidy_emit m p : tidy p -> tidy (emit m p).
Proof.
  intros Ht. unfold emit. destruct (socketRef p) eqn:Hr; [|exact Ht].
  destruct Ht as [H1 H2 H3 H4 H5 H6]. split; cbn; try done.
Qed.

(** Changing the listeners of a socket keeps the provider tidy, as long as
    the socket stays wired. *)
Lemma tidy_update_listeners i f p :
  (forall s, connected (f s) = connected s /\ active (f s) = active s) ->
  (forall s, sockets p !! i = Some s -> wired (closures p) (f s)) ->
  tidy p -> tidy (update_socket i f p).
Proof.
  intros Hf Hw Ht. rewrite update_socket_spec. split; cbn.
  - intros j s Hj Ha. rewrite lookup_update_socket in Hj.
    case_decide; [subst j|by eapply (tidy_active p)].
    destruct (sockets p !! i) as [s0|] eqn:Hs0; [|done].
    inversion Hj; subst. destruct (Hf s0) as [_ Hfa]. rewrite Hfa in Ha.
    by eapply (tidy_active p Ht i s0).
  - intros j Hj. destruct (tidy_ref p Ht j Hj) as (s & Hs).
    rewrite lookup_update_socket. case_decide; [subst j|by exists s].
    rewrite Hs. by exists (f s).
  - intros j s Hj Hc. rewrite lookup_update_socket in Hj.
    case_decide; [subst j|by eapply (tidy_connected p)].
    destruct (sockets p !! i) as [s0|] eqn:Hs0; [|done].
    inversion Hj; subst. destruct (Hf s0) as [Hfc Hfa]. rewrite Hfc in Hc.
    rewrite Hfa. by eapply (tidy_connected p Ht i s0).
  - intros Hq. apply (tidy_idle p Ht). intros j s Hj.
    specialize (Hq j). rewrite lookup_update_socket in Hq.
    case_decide; [subst j|by apply Hq].
    rewrite Hj in Hq. destruct (Hf s) as [_ Hfa]. rewrite <- Hfa. by apply Hq.
  - intros j s Hj. rewrite lookup_update_socket in Hj.
    case_decide; [subst j|by eapply (tidy_wired p)].
    destruct (sockets p !! i) as [s0|] eqn:Hs0; [|done].
    inversion Hj; subst. by apply Hw.
  - by apply (tidy_calls p).
Qed.

Lemma tidy_register event h p :
  session_registration (S (closures p)) (event, h) ->
  tidy p -> tidy (register event h p).
Proof.
  intros Hh Ht. unfold register. cbn [socketRef set_closures].
  assert (Ht1 : tidy (set_closures (S (closures p)) p)).
  { destruct Ht as [H1 H2 H3 H4 H5 H6]. split; cbn; try done.
    - intros j s Hj. eapply wired_mono; [|by eapply H5]. lia.
    - eapply Forall_impl; [exact H6|]. cbn. lia. }
  destruct (socketRef p) as [i|] eqn:Hr; [|exact Ht1].
  unfold socket_on. apply tidy_update_listeners; [done| |exact Ht1].
  intros s Hs. destruct (tidy_wired _ Ht1 i s Hs) as (extra & Hl & Hx).
  exists (extra ++ [(event, h)]). split.
  - cbn. rewrite Hl. by rewrite <- app_assoc.
  - apply Forall_app. split; [exact Hx|]. by constructor.
Qed.

Lemma remove_first_base n x extra :
  session_registration n x ->
  remove_first x (base_listeners ++ extra) = (base_listeners ++ remove_first x extra)%list.
Proof.
  destruct x as [event h]. destruct h; cbn; try done; intros _.
  all: by repeat case_decide.
Qed.

Lemma Forall_remove_first (P : string * Listener -> Prop) x l :
  Forall P l -> Forall P (remove_first x l).
Proof.
  induction 1 as [|y l Hy Hl IH]; cbn; [constructor|].
  case_decide; [exact Hl | by constructor].
Qed.

Lemma detach_registration d :
  exists n, session_registration n (detach_event d, detach_handler d).
Proof. destruct d as [c cb|c cb]; exists (S c); cbn; (split; [done|lia]). Qed.

Lemma tidy_detach d p : tidy p -> tidy (detach d p).
Proof.
  intros Ht. unfold detach. destruct (socketRef p) as [i|] eqn:Hr; [|exact Ht].
  unfold socket_off. apply tidy_update_listeners; [done| |exact Ht].
  intros s Hs. destruct (tidy_wired p Ht i s Hs) as (extra & Hl & Hx).
  exists (remove_first (detach_event d, detach_handler d) extra). split.
  - cbn. rewrite Hl.
    destruct (detach_registration d) as [n Hd]. by eapply remove_first_base.
  - by apply Forall_remove_first.
Qed.

Lemma settled_frame p q :
  socketRef q = socketRef p -> cleanup q = cleanup p -> settled p -> settled q.
Proof. unfold settled. by intros -> ->. Qed.

Lemma emit_frame m p :
  socketRef (emit m p) = socketRef p /\ cleanup (emit m p) = cleanup p.
Proof. unfold emit. destruct (socketRef p) eqn:Hr; cbn; by rewrite ?Hr. Qed.

Lemma register_frame event h p :
  socketRef (register event h p) = socketRef p /\
  cleanup (register event h p) = cleanup p.
Proof.
  unfold register. cbn [socketRef set_closures].
  destruct (socketRef p) eqn:Hr; [|by cbn; rewrite ?Hr].
  unfold socket_on. rewrite update_socket_spec. cbn. by rewrite ?Hr.
Qed.

Lemma detach_frame d p :
  socketRef (detach d p) = socketRef p /\ cleanup (detach d p) = cleanup p.
Proof.
  unfold detach. destruct (socketRef p) eqn:Hr; [|by rewrite ?Hr].
  unfold socket_off. rewrite update_socket_spec. cbn. by rewrite ?Hr.
Qed.

Lemma tidy_step a p :
  tidy p -> settled p -> tidy (step p a) /\ settled (step p a).
Proof.
  intros Ht Hs. destruct a as [a sid| |i e|m|cb|cb|d]; cbn [step].
  - by apply tidy_effect.
  - by apply tidy_unmount.
  - split; [by apply tidy_deliver|].
    unfold settled. destruct (deliver_frame i e p) as (-> & -> & _). exact Hs.
  - split; [by apply tidy_emit|].
    destruct (emit_frame m p). by eapply settled_frame.
  - split; [apply tidy_register; [cbn; split; [done|lia] | done]|].
    destruct (register_frame "session:sync" (sync_handler (closures p) cb) p).
    by eapply settled_frame.
  - split; [apply tidy_register; [cbn; split; [done|lia] | done]|].
    destruct (register_frame "session:joined" (joined_handler (closures p) cb) p).
    by eapply settled_frame.
  - split; [by apply tidy_detach|].
    destruct (detach_frame d p). by eapply settled_frame.
Qed.

Lemma tidy_run actions p :
  tidy p -> settled p -> tidy (run actions p) /\ settled (run actions p).
Proof.
  revert p. induction actions as [|a actions IH]; intros p Ht Hs; [done|].
  cbn. destruct (tidy_step a p Ht Hs). by apply IH.
Qed.

Lemma tidy_reachable actions : tidy (run actions initial).
Proof. apply tidy_run; apply tidy_initial. Qed.

(** *** Counting open connections *)

Lemma no_open_connection (l : list Socket) :
  (forall j s, l !! j = Some s -> active s = false) ->
  filter (fun s => active s = true) l = [].
Proof.
  induction l as [|x l IH]; intros H; [reflexivity|].
  rewrite filter_cons. pose proof (H 0 x eq_refl) as Hx.
  case_decide; [congruence|].
  apply IH. intros j s Hj. exact (H (S j) s Hj).
Qed.

Lemma at_most_one_open (l : list Socket) i :
  (forall j s, l !! j = Some s -> active s = true -> j = i) ->
  length (filter (fun s => active s = true) l) <= 1.
Proof.
  revert i. induction l as [|x l IH]; intros i H; [cbn; lia|].
  rewrite filter_cons. case_decide as Hx.
  - pose proof (H 0 x eq_refl Hx) as <-.
    rewrite no_open_connection; [cbn; lia|].
    intros j s Hj. destruct (active s) eqn:Ha; [|reflexivity].
    by pose proof (H (S j) s Hj Ha).
  - apply (IH (pred i)). intros j s Hj Ha.
    pose proof (H (S j) s Hj Ha). lia.
Qed.

Lemma tidy_at_most_one p : tidy p -> length (open_connections p) <= 1.
Proof.
  intros Ht. unfold open_connections.
  destruct (socketRef p) as [i|] eqn:Hr.
  - apply (at_most_one_open _ i). intros j s Hj Ha.
    pose proof (tidy_active p Ht j s Hj Ha). congruence.
  - rewrite no_open_connection; [cbn; lia|].
    intros j s. by apply tidy_quiet.
Qed.

(** *** [disconnect] *)

(** C7.  In every state a mounted provider can reach (the effect run for
    any values of the session, transport events, and calls of the functions
    of the context, in any order), after [disconnectSocket] returns
    [isConnected] and [isPartnerOnline] are false and [partnerStatus] is
    null, also when no socket was held at the call; no connection is open;
    and a second [disconnectSocket] changes nothing. *)
Theorem disconnect_resets (actions : list Action) :
  let p' := disconnectSocket (run actions initial) in
  isConnected p' = false /\
  isPartnerOnline p' = false /\
  partnerStatus p' = None /\
  socketRef p' = None /\
  open_connections p' = [] /\
  disconnectSocket p' = p'.
Proof.
  cbv zeta.
  pose proof (tidy_disconnectSocket _ (tidy_reachable actions)) as Ht.
  pose proof (disconnectSocket_socketRef (run actions initial)) as Hr.
  destruct (tidy_unheld _ Ht Hr) as (H1 & H2 & H3).
  conjs; try done.
  - apply no_open_connection. intros j s. by apply tidy_quiet.
  - by apply disconnectSocket_idle.
Qed.

(** With no socket held the call finds the defaults already in place. *)
Example disconnect_without_connection :
  disconnectSocket initial = initial /\
  disconnectSocket (run [Effect false None; Effect true None] initial)
  = run [Effect false None; Effect true None] initial.
Proof. split; reflexivity. Qed.

(** A connected session with a listening partner, then [disconnect]. *)
Example disconnect_after_status :
  let p := run [Effect true (Some "u1"); Transport 0 Connect;
                Transport 0 (PartnerStatusChanged (now_playing true "X"))] initial in
  (isConnected p, isPartnerOnline p, partnerStatus p)
  = (true, true, Some (now_playing true "X")) /\
  (isConnected (disconnectSocket p), isPartnerOnline (disconnectSocket p),
   partnerStatus (disconnectSocket p)) = (false, false, None).
Proof. split; reflexivity. Qed.

(** *** [connect] *)

Lemma settled_reachable actions : settled (run actions initial).
Proof. apply tidy_run; apply tidy_initial. Qed.

(** The effect, for a session with an identity: [disconnectSocket] when a
    cleanup is pending, then [connectSocket]. *)
Lemma effect_connects a spotifyId p :
  a && Js.str_truthy spotifyId = true ->
  effect a spotifyId p = set_cleanup true (connectSocket spotifyId (run_cleanup p)).
Proof. intros H. unfold effect, effect_body. by rewrite H. Qed.

Lemma run_cleanup_length p :
  length (sockets (run_cleanup p)) = length (sockets p).
Proof.
  unfold run_cleanup. destruct (cleanup p); [|reflexivity]. cbn.
  unfold disconnectSocket, socket_disconnect, update_socket.
  destruct (socketRef p) as [i|]; [|reflexivity].
  destruct (sockets p !! i) as [s|]; [|reflexivity].
  destruct (connected s && active s); [rewrite dispatch_spec|]; cbn;
    apply length_insert.
Qed.

(** After it, the new socket is held and it is the only open one. *)
Lemma effect_opens_one a spotifyId p :
  tidy p -> settled p -> a && Js.str_truthy spotifyId = true ->
  socketRef (effect a spotifyId p) = Some (length (sockets p)) /\
  open_connections (effect a spotifyId p) = [fresh_socket spotifyId] /\
  open_connections (run_cleanup p) = [].
Proof.
  intros Ht Hs Ha. destruct (tidy_run_cleanup p Ht Hs) as (Htc & Hrc & _).
  assert (Hnone : open_connections (run_cleanup p) = []).
  { apply no_open_connection. intros j s. by apply tidy_quiet. }
  rewrite effect_connects by done.
  rewrite connectSocket_opens by by apply current_connected_idle.
  conjs; [|simpl; unfold open_connections in *; cbn|exact Hnone].
  - cbn. by rewrite run_cleanup_length.
  - by rewrite filter_app, Hnone.
Qed.

(** C3.  The provider connects through its effect, the only caller of
    [connectSocket]: for a session with an identity the effect first runs
    the cleanup of its previous run, [disconnectSocket], and then
    [connectSocket].  In every state a mounted provider can reach,
    connecting leaves exactly one open connection, made for that identity
    and held by the provider; connecting a second time, with no disconnect
    requested in between, first closes the connection the first call opened
    and again leaves exactly one open connection; and at most one
    connection is open in every state. *)
Theorem connect_is_idempotent (actions : list Action) (first second : string) :
  first <> EmptyString ->
  second <> EmptyString ->
  let p := run actions initial in
  let p1 := effect true (Some first) p in
  let p2 := effect true (Some second) p1 in
  open_connections p1 = [fresh_socket (Some first)] /\
  socketRef p1 = Some (length (sockets p)) /\
  p2 = set_cleanup true (connectSocket (Some second) (set_cleanup false (disconnectSocket p1))) /\
  open_connections (disconnectSocket p1) = [] /\
  (exists s, sockets p2 !! length (sockets p) = Some s /\ active s = false) /\
  open_connections p2 = [fresh_socket (Some second)] /\
  socketRef p2 = Some (length (sockets p1)) /\
  length (open_connections p) <= 1.
Proof.
  intros H1 H2 p p1 p2.
  pose proof (tidy_reachable actions) as Ht. fold p in Ht.
  pose proof (settled_reachable actions) as Hs. fold p in Hs.
  assert (Ha1 : true && Js.str_truthy (Some first) = true)
    by by rewrite (str_truthy_Some first H1).
  assert (Ha2 : true && Js.str_truthy (Some second) = true)
    by by rewrite (str_truthy_Some second H2).
  destruct (tidy_effect true (Some first) p Ht Hs) as [Ht1 Hs1]. fold p1 in Ht1, Hs1.
  destruct (effect_opens_one true (Some first) p Ht Hs Ha1) as (Hr1 & Ho1 & _).
  fold p1 in Hr1, Ho1.
  destruct (effect_opens_one true (Some second) p1 Ht1 Hs1 Ha2) as (Hr2 & Ho2 & Hc2).
  fold p2 in Hr2, Ho2.
  assert (Hcl : cleanup p1 = true) by reflexivity.
  assert (Hrc : run_cleanup p1 = set_cleanup false (disconnectSocket p1)).
  { unfold run_cleanup. by rewrite Hcl. }
  destruct (tidy_effect true (Some second) p1 Ht1 Hs1) as [Ht2 _]. fold p2 in Ht2.
  rewrite Hrc in Hc2.
  conjs; try done.
  - subst p2. rewrite effect_connects by exact Ha2. by rewrite Hrc.
  - assert (Hlt : length (sockets p) < length (sockets p2)).
    { destruct (tidy_ref p1 Ht1 _ Hr1) as (s1 & Hs1').
      apply lookup_lt_Some in Hs1'.
      destruct (tidy_ref p2 Ht2 _ Hr2) as (s2 & Hs2').
      apply lookup_lt_Some in Hs2'. lia. }
    destruct (lookup_lt_is_Some_2 _ _ Hlt) as [s Hsp]. exists s. split; [exact Hsp|].
    destruct (active s) eqn:Ha; [|reflexivity].
    pose proof (tidy_active p2 Ht2 _ s Hsp Ha) as Hr.
    destruct (tidy_ref p1 Ht1 _ Hr1) as (s1 & Hs1'). apply lookup_lt_Some in Hs1'.
    assert (Heq : length (sockets p1) = length (sockets p)) by congruence. lia.
  - by apply tidy_at_most_one.
Qed.

(** Signed in as [u1]: the effect runs, and runs again for the same
    identity. *)
Lemma connect_is_idempotent_witness :
  let p1 := effect true (Some "u1") initial in
  let p2 := effect true (Some "u1") p1 in
  map query (open_connections p1) = [Some "u1"] /\
  map query (open_connections p2) = [Some "u1"] /\
  map active (sockets p2) = [false; true].
Proof.
  cbv zeta.
  destruct (connect_is_idempotent [] "u1" "u1") as (H1 & _ & _ & _ & _ & H2 & _);
    [done..|].
  cbn [run fold_left] in H1, H2.
  rewrite H1, H2. split; [reflexivity|]. split; [reflexivity|].
  vm_compute. reflexivity.
Defined.

Example effect_reruns_keep_one_connection :
  let p := run [Effect true (Some "u1"); Transport 0 Connect;
                Effect true (Some "u9"); Effect true (Some "u1")] initial in
  length (sockets p) = 3 /\ map query (open_connections p) = [Some "u1"] /\
  socketRef p = Some 2.
Proof. split; [|split]; reflexivity. Qed.

(** The guard of [connectSocket] looks at [connected] only, and
    [connectSocket] closes nothing itself: called on its own a second time
    before the first socket is connected it would open a second socket.
    The provider never calls it that way; [disconnectSocket] always comes
    first. *)
Example connect_twice_in_succession :
  let p2 := connectSocket (Some "u1") (connectSocket (Some "u1") initial) in
  map active (sockets p2) = [true; true] /\ socketRef p2 = Some 1 /\
  length (open_connections p2) = 2.
Proof. split; [|split]; reflexivity. Qed.

(** What the leaked socket can do: after [disconnect()] closed the second
    socket, an event on the first one sets [isConnected] again, and
    [disconnect()] no longer resets it.  No run of the mounted provider gets
    there. *)
Example leaked_socket_survives_disconnect :
  let p2 := connectSocket (Some "u1") (connectSocket (Some "u1") initial) in
  let p3 := deliver 0 Connect (disconnectSocket p2) in
  isConnected p3 = true /\ isConnected (disconnectSocket p3) = true.
Proof. split; reflexivity. Qed.

(** *** Inbound partner status *)

Lemma registrations_other_event n extra event :
  Forall (session_registration n) extra ->
  event <> "session:sync" -> event <> "session:joined" ->
  filter (fun r => fst r = event) extra = [].
Proof.
  intros Hx H1 H2. induction Hx as [|[ev h] extra Hr _ IH]; [reflexivity|].
  rewrite filter_cons, IH. case_decide as He; [|reflexivity].
  cbn in He. destruct h; cbn in Hr; try done; destruct Hr; congruence.
Qed.

(** On a wired socket a presence event reaches exactly the listener
    [connectSocket] registered for it. *)
Lemma listeners_of_presence n s event :
  wired n s ->
  event <> "session:sync" -> event <> "session:joined" ->
  listeners_of event s = listeners_of event (fresh_socket None).
Proof.
  intros Hw H1 H2.
  destruct (listeners_of_wired n s event Hw) as (extra & Hx & ->).
  rewrite (registrations_other_event n extra event Hx H1 H2). cbn.
  by rewrite app_nil_r.
Qed.

Lemma on_partner_status_run data p :
  run_listener (PartnerStatusChanged data) on_partner_status p =
  setIsPartnerOnline (isListening data || isPartnerOnline p)
    (setPartnerStatus (Some data) p).
Proof. cbn. by destruct (isListening data). Qed.

(** C6.  On every open socket of a mounted provider, in every state it can
    reach, an inbound [partner:status] event makes [partnerStatus] the
    payload itself, whatever the previous snapshot was; with
    [isListening = true] in the payload [isPartnerOnline] becomes true,
    whether or not a [partner:online] event came before, and otherwise it
    keeps its value; [isConnected] is not touched. *)
Theorem partner_status_replaces (actions : list Action) (i : nat) (s : Socket)
  (data : PartnerStatus) :
  let p := run actions initial in
  sockets p !! i = Some s ->
  active s = true ->
  let p' := deliver i (PartnerStatusChanged data) p in
  partnerStatus p' = Some data /\
  (isListening data = true -> isPartnerOnline p' = true) /\
  (isListening data = false -> isPartnerOnline p' = isPartnerOnline p) /\
  isConnected p' = isConnected p.
Proof.
  intros p Hs Ha p'. subst p'.
  pose proof (tidy_wired p (tidy_reachable actions) i s Hs) as Hw.
  rewrite (deliver_open i _ p s Hs Ha).
  rewrite (listeners_of_presence _ s _ Hw) by done.
  change (listeners_of (event_name (PartnerStatusChanged data)) (fresh_socket None))
    with [on_partner_status].
  cbn [dispatch fold_left]. rewrite on_partner_status_run. cbn.
  conjs; try done.
  - by intros ->.
  - by intros ->.
Qed.

(** The scenario of the specification: connected as [u1], no
    [partner:online] received, then [partner:status] with track [X]. *)
Lemma partner_status_replaces_witness :
  let p := run [Effect true (Some "u1"); Transport 0 Connect] initial in
  let p' := deliver 0 (PartnerStatusChanged (now_playing true "X")) p in
  isPartnerOnline p = false /\
  partnerStatus p' = Some (now_playing true "X") /\
  isPartnerOnline p' = true.
Proof.
  intros p p'.
  destruct (partner_status_replaces
              [Effect true (Some "u1"); Transport 0 Connect] 0
              (with_connected true (fresh_socket (Some "u1")))
              (now_playing true "X") eq_refl eq_refl) as (H1 & H2 & _).
  split; [reflexivity|]. split; [exact H1 | exact (H2 eq_refl)].
Defined.

(** A later snapshot is not merged with the earlier one. *)
Example partner_status_not_merged :
  let earlier := now_playing true "X" in
  let later :=
    {| isListening := false; spotifyId := Some "u2"; playlistId := None;
       playlistName := None; trackUri := None; trackName := None;
       artistName := None; positionMs := None; isPlaying := None;
       updatedAt := None |} in
  let p := run [Effect true (Some "u1"); Transport 0 Connect;
                Transport 0 (PartnerStatusChanged earlier);
                Transport 0 (PartnerStatusChanged later)] initial in
  partnerStatus p = Some later /\ isPartnerOnline p = true.
Proof. split; reflexivity. Qed.

(** *** Registrations and their detach functions *)

Lemma heard_app h l1 l2 e : heard h (l1 ++ l2) e = heard h l1 e ++ heard h l2 e.
Proof.
  unfold heard, calls_of.
  by rewrite filter_app, map_app, flat_map_app, filter_app, map_app.
Qed.

Lemma heard_base h e : heard h base_listeners e = [].
Proof. by destruct e; cbn; repeat case_decide. Qed.

Lemma heard_one h event g e :
  heard h [(event, g)] e =
  if decide (event = event_name e)
  then map call_argument (filter (fun c => call_closure c = h) (call_of e g))
  else [].
Proof.
  unfold heard, calls_of. rewrite filter_cons, filter_nil. cbn [fst].
  case_decide; [|reflexivity]. cbn. by rewrite app_nil_r.
Qed.

Lemma heard_registrations n h extra e :
  Forall (session_registration n) extra -> n <= h -> heard h extra e = [].
Proof.
  intros Hx Hle. induction Hx as [|[ev g] extra Hr _ IH]; [reflexivity|].
  change ((ev, g) :: extra) with ([(ev, g)] ++ extra).
  rewrite heard_app, IH, app_nil_r, heard_one.
  case_decide; [|reflexivity].
  destruct g, e; cbn in *; try done; destruct Hr as [_ Hlt].
  all: case_decide; [lia | reflexivity].
Qed.

Lemma heard_sync h g callback e :
  heard h [("session:sync", sync_handler g callback)] e =
  if decide (g = h)
  then match e with SessionSync c => [SyncArg c] | _ => [] end
  else [].
Proof.
  rewrite heard_one. by destruct e; cbn; repeat case_decide.
Qed.

Lemma deliver_all_closed i es p :
  (forall s, sockets p !! i = Some s -> active s = false) -> deliver_all i es p = p.
Proof.
  intros H. induction es as [|e es IH]; [reflexivity|].
  cbn. rewrite deliver_closed by done. exact IH.
Qed.

Lemma listeners_flagged e s : listeners (flagged e s) = listeners s.
Proof. by destruct e as [|[]| | | | |]. Qed.

Lemma deliver_all_calls i es p s l :
  sockets p !! i = Some s -> active s = true -> listeners s = l ->
  calls (deliver_all i es p) =
  calls p ++
  flat_map (fun e => calls_of e (map snd (filter (fun r => fst r = event_name e) l)))
    (arriving es).
Proof.
  revert p s. induction es as [|e es IH]; intros p s Hs Ha Hl.
  - cbn. by rewrite app_nil_r.
  - cbn [deliver_all fold_left]. fold (deliver_all i es (deliver i e p)).
    pose proof (lookup_lt_Some _ _ _ Hs) as Hlt.
    assert (Hs' : sockets (deliver i e p) !! i = Some (flagged e s)).
    { rewrite (deliver_sockets i e p s Hs Ha). by apply list_lookup_insert_eq. }
    cbn [arriving]. destruct (closes e) eqn:He.
    + rewrite deliver_all_closed.
      * rewrite (deliver_calls i e p s Hs Ha). unfold listeners_of. rewrite Hl.
        cbn [flat_map]. by rewrite app_nil_r.
      * intros s' Hs''. rewrite Hs' in Hs''. inversion Hs''; subst.
        by rewrite active_flagged, He, andb_false_r.
    + rewrite (IH (deliver i e p) (flagged e s) Hs').
      * rewrite (deliver_calls i e p s Hs Ha). unfold listeners_of. rewrite Hl.
        cbn [flat_map]. by rewrite <- app_assoc.
      * by rewrite active_flagged, Ha, He.
      * by rewrite listeners_flagged.
Qed.

Lemma received_deliver_all h i es p s :
  sockets p !! i = Some s -> active s = true ->
  received h (deliver_all i es p) =
  received h p ++ flat_map (heard h (listeners s)) (arriving es).
Proof.
  intros Hs Ha. unfold received.
  rewrite (deliver_all_calls i es p s (listeners s) Hs Ha eq_refl).
  rewrite filter_app, map_app. f_equal.
  induction (arriving es) as [|e l IH]; [reflexivity|].
  cbn [flat_map]. by rewrite filter_app, map_app, IH.
Qed.

(** What a handler closure is called with when the transport delivers [es]
    on socket [i]: what it hears of the events that arrive. *)
Lemma received_arrivals h i es p s :
  sockets p !! i = Some s ->
  received h (deliver_all i es p) =
  received h p ++ flat_map (heard h (listeners s)) (arrivals p i es).
Proof.
  intros Hs. unfold arrivals. rewrite Hs. destruct (active s) eqn:Ha.
  - by apply received_deliver_all.
  - rewrite deliver_all_closed by (intros s'; congruence).
    cbn. by rewrite app_nil_r.
Qed.

Lemma arrivals_same p q i s t es :
  sockets p !! i = Some s -> sockets q !! i = Some t -> active t = active s ->
  arrivals q i es = arrivals p i es.
Proof. intros Hp Hq Ha. unfold arrivals. by rewrite Hp, Hq, Ha. Qed.

Lemma received_fresh h p :
  tidy p -> closures p <= h -> received h p = [].
Proof.
  intros Ht Hle. unfold received.
  pose proof (tidy_calls p Ht) as Hc.
  induction Hc as [|c cs Hlt _ IH]; [reflexivity|].
  rewrite filter_cons. case_decide; [lia | exact IH].
Qed.

Lemma remove_first_fresh (x : string * Listener) l t :
  x ∉ l -> remove_first x (l ++ x :: t) = l ++ t.
Proof.
  induction l as [|y l IH]; intros Hx; cbn.
  - by rewrite decide_True.
  - rewrite decide_False by (intros ->; apply Hx; left).
    rewrite IH; [reflexivity|]. intros Hin. apply Hx. by right.
Qed.

Lemma socket_on_lookup i event g p s :
  sockets p !! i = Some s ->
  sockets (socket_on i event g p) !! i =
  Some (with_listeners (listeners s ++ [(event, g)]) s).
Proof.
  intros Hs. unfold socket_on. rewrite lookup_update_socket.
  rewrite decide_True by done. by rewrite Hs.
Qed.

Lemma socket_on_other i j event g p :
  i <> j -> sockets (socket_on i event g p) !! j = sockets p !! j.
Proof.
  intros Hne. unfold socket_on. rewrite lookup_update_socket.
  by rewrite decide_False.
Qed.

Lemma socket_on_calls i event g p : calls (socket_on i event g p) = calls p.
Proof. unfold socket_on. by rewrite update_socket_spec. Qed.

Lemma socket_off_lookup i event g p s :
  sockets p !! i = Some s ->
  sockets (socket_off i event g p) !! i =
  Some (with_listeners (remove_first (event, g) (listeners s)) s).
Proof.
  intros Hs. unfold socket_off. rewrite lookup_update_socket.
  rewrite decide_True by done. by rewrite Hs.
Qed.

Lemma socket_off_other i j event g p :
  i <> j -> sockets (socket_off i event g p) !! j = sockets p !! j.
Proof.
  intros Hne. unfold socket_off. rewrite lookup_update_socket.
  by rewrite decide_False.
Qed.

Lemma socket_off_calls i event g p : calls (socket_off i event g p) = calls p.
Proof. unfold socket_off. by rewrite update_socket_spec. Qed.

Lemma fresh_registration_absent n s callback :
  wired n s -> ("session:sync", sync_handler n callback) ∉ listeners s.
Proof.
  intros (extra & -> & Hx) Hin. apply elem_of_app in Hin as [Hin|Hin].
  - unfold base_listeners in Hin.
    repeat (apply elem_of_cons in Hin as [Hin|Hin]; [discriminate Hin|]).
    by apply elem_of_nil in Hin.
  - rewrite Forall_forall in Hx. specialize (Hx _ Hin). cbn in Hx. lia.
Qed.

Lemma heard_wired n h s e :
  wired n s -> n <= h -> heard h (listeners s) e = [].
Proof.
  intros (extra & -> & Hx) Hle.
  by rewrite heard_app, heard_base, (heard_registrations n h extra e Hx Hle).
Qed.

Lemma flat_map_nil {A B} (l : list A) : flat_map (fun _ => @nil B) l = [].
Proof. by induction l. Qed.

Lemma received_calls h p q : calls q = calls p -> received h q = received h p.
Proof. unfold received. by intros ->. Qed.

Lemma register_idle event g p :
  socketRef p = None -> register event g p = set_closures (S (closures p)) p.
Proof. intros H. unfold register. cbn. by rewrite H. Qed.

Lemma register_held event g p j s :
  socketRef p = Some j -> sockets p !! j = Some s ->
  sockets (register event g p) !! j
  = Some (with_listeners (listeners s ++ [(event, g)]) s) /\
  (forall i, j <> i -> sockets (register event g p) !! i = sockets p !! i) /\
  calls (register event g p) = calls p /\
  socketRef (register event g p) = Some j /\
  closures (register event g p) = S (closures p).
Proof.
  intros Hr Hs. unfold register. cbn [socketRef set_closures]. rewrite Hr.
  conjs.
  - by rewrite (socket_on_lookup j event g _ s).
  - intros i Hne. by rewrite socket_on_other.
  - by rewrite socket_on_calls.
  - unfold socket_on. by rewrite update_socket_spec.
  - unfold socket_on. by rewrite update_socket_spec.
Qed.

Lemma detach_held d p j s :
  socketRef p = Some j -> sockets p !! j = Some s ->
  sockets (detach d p) !! j
  = Some (with_listeners
            (remove_first (detach_event d, detach_handler d) (listeners s)) s) /\
  (forall i, j <> i -> sockets (detach d p) !! i = sockets p !! i) /\
  calls (detach d p) = calls p.
Proof.
  intros Hr Hs. unfold detach. rewrite Hr. conjs.
  - by rewrite (socket_off_lookup j _ _ _ s).
  - intros i Hne. by rewrite socket_off_other.
  - by rewrite socket_off_calls.
Qed.

(** C9 (as amended).  Take a mounted provider in any state it can reach
    and register two callbacks with [onSyncCommand], then call the detach
    function the first registration returned.  Whatever events the
    transport delivers afterwards, on whatever socket, the second handler
    is called with exactly what it would have been called with had the
    first not been detached.  When the provider holds a socket at the
    registrations, the detach removes the first handler and nothing else
    from it, the second handler is called with every [session:sync] command
    that arrives on that socket from then on, in order and once each, and
    the first handler is not called any more. *)
Theorem detach_first_keeps_second (actions : list Action) (cb1 cb2 : nat) :
  let p := run actions initial in
  let first := onSyncCommand cb1 p in
  let second := onSyncCommand cb2 (snd first) in
  let p2 := snd second in
  let p3 := detach (fst first) p2 in
  let h1 := closures p in
  let h2 := S (closures p) in
  (forall i es, received h2 (deliver_all i es p3) = received h2 (deliver_all i es p2)) /\
  (forall j,
     socketRef p = Some j ->
     (exists s s3,
        sockets p !! j = Some s /\ sockets p3 !! j = Some s3 /\
        listeners s3 = listeners s ++ [("session:sync", sync_handler h2 cb2)]) /\
     (forall es,
        received h2 (deliver_all j es p3) = sync_arguments (arrivals p j es) /\
        received h1 (deliver_all j es p3) = [])).
Proof.
  intros p first second p2 p3 h1 h2.
  pose proof (tidy_reachable actions) as Ht. fold p in Ht.
  subst first second p2 p3 h1 h2. unfold onSyncCommand. cbn [fst snd].
  set (n := closures p).
  set (x1 := ("session:sync", sync_handler n cb1)).
  destruct (socketRef p) as [j|] eqn:Hr.
  2:{ split; [|done].
      rewrite (register_idle _ _ p Hr).
      rewrite register_idle by done.
      unfold detach. cbn. by rewrite Hr. }
  destruct (tidy_ref p Ht j Hr) as (s & Hs).
  pose proof (tidy_wired p Ht j s Hs) as Hw.
  destruct (register_held "session:sync" (sync_handler n cb1) p j s Hr Hs)
    as (Hs1 & Ho1 & Hc1 & Hr1 & Hn1).
  set (p1 := register "session:sync" (sync_handler n cb1) p) in *.
  set (s1 := with_listeners (listeners s ++ [x1]) s) in *.
  assert (Hcl : closures p1 = S n) by exact Hn1.
  rewrite Hcl.
  destruct (register_held "session:sync" (sync_handler (S n) cb2) p1 j s1 Hr1 Hs1)
    as (Hs2 & Ho2 & Hc2 & Hr2 & _).
  set (p2 := register "session:sync" (sync_handler (S n) cb2) p1) in *.
  set (x2 := ("session:sync", sync_handler (S n) cb2)) in *.
  set (s2 := with_listeners (listeners s1 ++ [x2]) s1) in *.
  destruct (detach_held (off_sync n cb1) p2 j s2 Hr2 Hs2) as (Hs3 & Ho3 & Hc3).
  set (p3 := detach (off_sync n cb1) p2) in *.
  assert (Hl3 : remove_first x1 (listeners s2) = listeners s ++ [x2]).
  { cbn. rewrite <- app_assoc. cbn.
    apply remove_first_fresh. by apply fresh_registration_absent. }
  cbn [detach_event detach_handler] in Hs3. fold x1 in Hs3. rewrite Hl3 in Hs3.
  set (s3 := with_listeners (listeners s ++ [x2]) s2) in *.
  assert (Hheard2 : forall e,
    heard (S n) (listeners s3) e = match e with SessionSync c => [SyncArg c] | _ => [] end).
  { intros e. cbn [listeners s3 with_listeners].
    rewrite heard_app, (heard_wired n (S n) s e Hw) by lia.
    unfold x2. rewrite heard_sync, decide_True by done. reflexivity. }
  assert (Hheard1 : forall e, heard n (listeners s3) e = []).
  { intros e. cbn [listeners s3 with_listeners].
    rewrite heard_app, (heard_wired n n s e Hw) by lia.
    unfold x2. rewrite heard_sync, decide_False by lia. reflexivity. }
  assert (Hcalls3 : calls p3 = calls p) by congruence.
  assert (Ha3 : forall es, arrivals p3 j es = arrivals p j es)
    by (intros es; by apply (arrivals_same p p3 j s s3)).
  assert (Ha2 : forall es, arrivals p2 j es = arrivals p j es)
    by (intros es; by apply (arrivals_same p p2 j s s2)).
  split.
  - intros i es. destruct (decide (j = i)) as [<-|Hne].
    + rewrite (received_arrivals _ j es p3 s3 Hs3), Ha3.
      rewrite (received_arrivals _ j es p2 s2 Hs2), Ha2.
      rewrite (received_calls _ p2 p3 Hc3). f_equal.
      apply flat_map_ext. intros e. rewrite Hheard2.
      cbn [listeners s2 s1 with_listeners].
      rewrite !heard_app, (heard_wired n (S n) s e Hw) by lia.
      unfold x1, x2. rewrite !heard_sync.
      rewrite decide_False by lia. by rewrite decide_True.
    + assert (Hq : forall q, sockets q !! i = sockets p !! i ->
                forall s', sockets q !! i = Some s' -> active s' = false).
      { intros q Hq s' Hs'. rewrite Hq in Hs'.
        destruct (active s') eqn:Ha'; [|reflexivity].
        pose proof (tidy_active p Ht i s' Hs' Ha'). congruence. }
      rewrite !deliver_all_closed.
      * by apply received_calls.
      * apply Hq. by rewrite Ho2, Ho1.
      * apply Hq. by rewrite Ho3, Ho2, Ho1.
  - intros j' [= <-]. split.
    + exists s, s3. by conjs.
    + intros es.
      rewrite !(received_arrivals _ j es p3 s3 Hs3), Ha3.
      rewrite !(received_calls _ p p3 Hcalls3).
      rewrite !(received_fresh _ p Ht) by (fold n; lia).
      split; cbn [app].
      * unfold sync_arguments. apply flat_map_ext, Hheard2.
      * rewrite (flat_map_ext _ _ Hheard1). apply flat_map_nil.
Qed.

(** The scenario of the specification: two registrations, the first is
    detached, two commands arrive. *)
Example two_registrations_one_detached :
  let p := run [Effect true (Some "u1"); Transport 0 Connect] initial in
  let first := onSyncCommand 7 p in
  let second := onSyncCommand 8 (snd first) in
  let p3 := detach (fst first) (snd second) in
  let p4 := deliver_all 0 [SessionSync (command "A"); SessionSync (command "B")] p3 in
  map call_callback (calls p4) = [8; 8] /\
  received 1 p4 = [SyncArg (command "A"); SyncArg (command "B")] /\
  received 0 p4 = [].
Proof. split; [|split]; reflexivity. Qed.

(** C9, the claim as stated, fails in two ways.  Registrations made while
    no socket is held, as a screen mounted before the session is
    authenticated makes them, attach the handlers to nothing
    ([socketRef.current?.on]), and the socket the provider opens afterwards
    does not know them.  And handlers attached to the socket held are not
    carried over to the socket that replaces it when the effect runs again.
    In both runs the command arrives on the open, connected socket of the
    provider and reaches neither handler. *)
Lemma detach_as_specified_fails :
  ~ detach_as_specified 7 8 initial
      [Effect true (Some "u1"); Transport 0 Connect;
       Transport 0 (SessionSync (command "A"))] /\
  ~ detach_as_specified 7 8
      (run [Effect true (Some "u1"); Transport 0 Connect] initial)
      [Effect true (Some "u9"); Transport 1 Connect;
       Transport 1 (SessionSync (command "A"))].
Proof.
  split; unfold detach_as_specified; vm_compute; discriminate.
Qed.

(** The runs behind the counterexample: the socket is open and connected
    when the command arrives, and no callback is called. *)
Example registration_without_socket :
  let second := onSyncCommand 8 (snd (onSyncCommand 7 initial)) in
  let p := run [Effect true (Some "u1"); Transport 0 Connect] (snd second) in
  map (fun s => (active s, connected s)) (sockets p) = [(true, true)] /\
  calls (deliver 0 (SessionSync (command "A")) p) = [].
Proof. split; reflexivity. Qed.

Example registration_on_replaced_socket :
  let p := run [Effect true (Some "u1"); Transport 0 Connect; OnSyncCommand 7;
                OnSyncCommand 8; Effect true (Some "u9"); Transport 1 Connect] initial in
  map (fun s => (active s, connected s)) (sockets p) = [(false, false); (true, true)] /\
  calls (deliver 1 (SessionSync (command "A")) p) = [].
Proof. split; reflexivity. Qed.

End Presence.

(** * Further properties of the code *)

(** ** [src/lib/storage.ts]: writing, reading back, removing *)

(** X1.  What [setStoredSpotifyId] and [setStoredUser] write is what the
    readers give back: after an accepted write of the identity,
    [getStoredSpotifyId] resolves with that identity; after an accepted
    write of a user, [getStoredUser] resolves with what [JSON.parse] makes
    of the text [JSON.stringify] produced.  Neither write touches the other
    record. *)
Theorem stored_records_round_trip (env : Env) (d : Device) (id : string)
  (u : Storage.StoredUser) (v : Js.json) :
  setItem_rejects env (clock d) StorageOps.SPOTIFY_ID = false ->
  setItem_rejects env (clock d) StorageOps.USER_DATA = false ->
  getItem_rejects env (S (clock d)) StorageOps.SPOTIFY_ID = false ->
  getItem_rejects env (S (clock d)) StorageOps.USER_DATA = false ->
  JSON_stringify env u <> EmptyString ->
  JSON_parse env (JSON_stringify env u) = Some v ->
  let d1 := snd (StorageOps.setStoredSpotifyId env id d) in
  let d2 := snd (StorageOps.setStoredUser env u d) in
  fst (StorageOps.getStoredSpotifyId env d1) = Resolved (Some id) /\
  asyncStorage d1 !! StorageOps.USER_DATA = asyncStorage d !! StorageOps.USER_DATA /\
  fst (StorageOps.getStoredUser env d2) = Resolved v /\
  asyncStorage d2 !! StorageOps.SPOTIFY_ID = asyncStorage d !! StorageOps.SPOTIFY_ID.
Proof.
  intros Hw1 Hw2 Hr1 Hr2 Hne Hp. cbv zeta.
  unfold StorageOps.setStoredSpotifyId, StorageOps.setStoredUser, AsyncStorage.setItem.
  rewrite Hw1, Hw2. cbn [snd].
  rewrite getStoredSpotifyId_run. cbn [clock tick with_storage asyncStorage].
  rewrite Hr1. conjs.
  - by rewrite lookup_insert_eq.
  - by rewrite lookup_insert_ne.
  - erewrite getStoredUser_parsed; [reflexivity|exact Hr2| |exact Hne|exact Hp].
    cbn. apply lookup_insert_eq.
  - by rewrite lookup_insert_ne.
Qed.

Lemma stored_records_round_trip_witness :
  let env := Sample.env EmptyString in
  let d1 := snd (StorageOps.setStoredSpotifyId env "u1" Sample.empty_device) in
  let d2 := snd (StorageOps.setStoredUser env Sample.stored_u1 Sample.empty_device) in
  fst (StorageOps.getStoredSpotifyId env d1) = Resolved (Some "u1") /\
  fst (StorageOps.getStoredUser env d2)
  = Resolved (Js.JObject [("id", Js.JString "u1")]).
Proof.
  intros env d1 d2.
  destruct (stored_records_round_trip env Sample.empty_device "u1" Sample.stored_u1
              (Js.JObject [("id", Js.JString "u1")]))
    as (H1 & _ & H2 & _); try reflexivity; [done|].
  split; [exact H1 | exact H2].
Defined.

(** X2.  After an accepted [removeStoredSpotifyId] the identity reads as
    [null] and the user record is as before; after an accepted
    [removeStoredUser] the user reads as [null] and the identity is as
    before.  This holds whether or not the later read is itself accepted. *)
Theorem removed_records_read_null (env : Env) (d : Device) :
  removeItem_rejects env (clock d) StorageOps.SPOTIFY_ID = false ->
  removeItem_rejects env (clock d) StorageOps.USER_DATA = false ->
  let d1 := snd (StorageOps.removeStoredSpotifyId env d) in
  let d2 := snd (StorageOps.removeStoredUser env d) in
  fst (StorageOps.getStoredSpotifyId env d1) = Resolved None /\
  asyncStorage d1 !! StorageOps.USER_DATA = asyncStorage d !! StorageOps.USER_DATA /\
  fst (StorageOps.getStoredUser env d2) = Resolved Js.JNull /\
  asyncStorage d2 !! StorageOps.SPOTIFY_ID = asyncStorage d !! StorageOps.SPOTIFY_ID.
Proof.
  intros H1 H2. cbv zeta.
  unfold StorageOps.removeStoredSpotifyId, StorageOps.removeStoredUser,
    AsyncStorage.removeItem.
  rewrite H1, H2. cbn [snd]. conjs.
  - rewrite getStoredSpotifyId_run. cbn [clock tick with_storage asyncStorage].
    rewrite lookup_delete_eq. by destruct (getItem_rejects _ _ _).
  - cbn. by rewrite lookup_delete_ne.
  - unfold StorageOps.getStoredUser, try_catch, bind, AsyncStorage.getItem.
    cbn [clock tick with_storage asyncStorage].
    rewrite lookup_delete_eq. by destruct (getItem_rejects _ _ _).
  - cbn. by rewrite lookup_delete_ne.
Qed.

Lemma removed_records_read_null_witness :
  let env := Sample.env EmptyString in
  fst (StorageOps.getStoredSpotifyId env
         (snd (StorageOps.removeStoredSpotifyId env Sample.paired_device)))
  = Resolved None /\
  fst (StorageOps.getStoredUser env
         (snd (StorageOps.removeStoredUser env Sample.paired_device)))
  = Resolved Js.JNull.
Proof.
  intros env.
  destruct (removed_records_read_null env Sample.paired_device eq_refl eq_refl)
    as (H1 & _ & H2 & _).
  split; [exact H1 | exact H2].
Defined.

(** X3.  [clearAuthData] attempts both removals whatever happens to the
    first: each record is gone exactly when its own removal was accepted
    (or it was not stored), every other key is untouched, and the call
    rejects exactly when one of the two removals was rejected. *)
Theorem clearAuthData_removes_what_it_can (env : Env) (d : Device) (key : string) :
  let r1 := removeItem_rejects env (clock d) StorageOps.SPOTIFY_ID in
  let r2 := removeItem_rejects env (S (clock d)) StorageOps.USER_DATA in
  let d' := snd (StorageOps.clearAuthData env d) in
  fst (StorageOps.clearAuthData env d)
  = (if r1 || r2 then Rejected StorageError else Resolved tt) /\
  clock d' = S (S (clock d)) /\
  asyncStorage d' !! key =
  (if decide (key = StorageOps.SPOTIFY_ID)
   then if r1 then asyncStorage d !! key else None
   else if decide (key = StorageOps.USER_DATA)
        then if r2 then asyncStorage d !! key else None
        else asyncStorage d !! key).
Proof.
  cbv zeta. rewrite clearAuthData_run. cbn [fst snd clock asyncStorage].
  conjs; [reflexivity..|].
  destruct (removeItem_rejects env (clock d) StorageOps.SPOTIFY_ID),
    (removeItem_rejects env (S (clock d)) StorageOps.USER_DATA);
    repeat case_decide; subst;
    rewrite ?lookup_delete_eq, ?lookup_delete_ne by done;
    rewrite ?lookup_delete_eq, ?lookup_delete_ne by done; done.
Qed.

(** The user record goes even though the removal of the identity failed. *)
Example clearAuthData_half :
  let env :=
    {| getItem_rejects := fun _ _ => false; setItem_rejects := fun _ _ => false;
       removeItem_rejects := fun t _ => Nat.eqb t 0;
       JSON_parse := Sample.parse; JSON_stringify := fun _ => "{}";
       auth_me := fun _ _ => None; auth_logout := fun _ _ => true;
       openAuthSessionAsync := fun _ _ _ => None;
       URL_searchParams_get := Sample.searchParams_get;
       Linking_createURL := fun path => path; API_URL := EmptyString |} in
  let r := StorageOps.clearAuthData env Sample.paired_device in
  fst r = Rejected StorageError /\
  asyncStorage (snd r) !! StorageOps.SPOTIFY_ID = Some "u1" /\
  asyncStorage (snd r) !! StorageOps.USER_DATA = None.
Proof. split; [reflexivity|]. split; vm_compute; reflexivity. Qed.

(** ** The session manager: every way out of an operation *)

(** Case analysis on the next answer of a collaborator. *)
Ltac oracle :=
  match goal with
  | |- context [auth_me ?e ?t ?k] => destruct (auth_me e t k) eqn:?
  | |- context [auth_logout ?e ?t ?k] => destruct (auth_logout e t k) eqn:?
  | |- context [setItem_rejects ?e ?t ?k] => destruct (setItem_rejects e t k) eqn:?
  | |- context [removeItem_rejects ?e ?t ?k] => destruct (removeItem_rejects e t k) eqn:?
  | |- context [openAuthSessionAsync ?e ?t ?a ?b] =>
      destruct (openAuthSessionAsync e t a b) as [[?|?]|] eqn:?
  | |- context [URL_searchParams_get ?e ?a ?b] =>
      destruct (URL_searchParams_get e a b) as [[?|]|] eqn:?
  | |- context [Js.str_truthy (Some ?x)] => destruct (Js.str_truthy (Some x)) eqn:?
  | |- context [StorageOps.clearAuthData ?e ?d] => rewrite (clearAuthData_run e d)
  end.

Ltac crunch :=
  repeat (cbn [fst snd device set_device clock tick state renders console
               with_storage asyncStorage negb andb orb];
          oracle).

Ltac unfold_session :=
  unfold initializeAuth, login, handleAuthSuccess, logout, refreshUser,
    openAuthSession, searchParam, try_finally, try_catch, bind, ret, throw, io, zoom,
    ApiClient.getMe, ApiClient.logout, StorageOps.setStoredUser,
    StorageOps.setStoredSpotifyId, AsyncStorage.setItem, setState, console_log.

(** [initializeAuth] after its two reads. *)
Lemma initializeAuth_reads (env : Env) (w : World) :
  initializeAuth env w =
  try_catch
    (match fst (startup_reads env (device w)) with
     | Some sid =>
         if Js.str_truthy (fst (startup_reads env (device w)))
            && Js.truthy (snd (startup_reads env (device w)))
         then
           try_catch
             (response <- io (ApiClient.getMe env sid) ;;
              io (StorageOps.setStoredUser env (toStoredUser response)) ;;;
              setState (fun _ => signedIn (toStoredUser response) sid
                                   (Api.partnerId response)))
             (fun _ =>
                io (StorageOps.clearAuthData env) ;;;
                setState (fun _ => signedOut))
         else setState (fun _ => signedOut)
     | None => setState (fun _ => signedOut)
     end)
    (fun _ => console_log "Auth initialization error:" ;;;
              setState (fun _ => signedOut))
    (set_device (tick (tick (device w))) w).
Proof.
  unfold startup_reads. cbn [fst snd].
  destruct (getStoredUser_resolves env (tick (device w))) as [v Hv].
  rewrite Hv, getStoredSpotifyId_run. cbn [fst].
  unfold initializeAuth.
  unfold try_catch at 1 3. unfold bind at 1 5.
  rewrite io_run, getStoredSpotifyId_run. cbn [fst snd].
  unfold bind at 1 4. rewrite io_run. cbn [device set_device].
  rewrite Hv, getStoredUser_device. cbn [fst snd]. reflexivity.
Qed.

Theorem initializeAuth_fails_closed (env : Env) (w : World) :
  let w' := snd (initializeAuth env w) in
  fst (initializeAuth env w) = Resolved tt /\
  isLoading (state w') = false /\
  (state w' = signedOut \/
   exists u sid p, sid <> EmptyString /\ state w' = signedIn u sid p).
Proof.
  cbv zeta. rewrite initializeAuth_reads.
  destruct (startup_reads env (device w)) as [id v]. cbn [fst snd].
  destruct id as [sid|]; [|by conjs; auto].
  destruct (Js.str_truthy (Some sid) && Js.truthy v) eqn:Ht; [|by conjs; auto].
  assert (Hne : sid <> EmptyString).
  { apply andb_prop in Ht as [Ht _]. cbn in Ht. intros ->. discriminate Ht. }
  unfold_session. crunch.
  all: cbn [fst snd device set_device clock tick state renders console
               with_storage asyncStorage negb andb orb isLoading signedOut signedIn].
  all: conjs; eauto 10.
Qed.

Example initializeAuth_unreadable_store :
  state (snd (initializeAuth (Sample.unreadable (Sample.env EmptyString))
                (initialWorld Sample.paired_device))) = signedOut.
Proof. reflexivity. Qed.

(** X5.  Unless both records were read at startup (a non-empty identity and
    a truthy user value), [initializeAuth] makes no request and leaves the
    store exactly as it found it, a lone identity or a damaged user record
    included: it only performs its two reads and sets the signed-out
    state. *)
Theorem initializeAuth_without_pair (env : Env) (w : World) :
  Js.str_truthy (fst (startup_reads env (device w)))
  && Js.truthy (snd (startup_reads env (device w))) = false ->
  initializeAuth env w =
  (Resolved tt,
   {| device := tick (tick (device w)); state := signedOut;
      renders := renders w ++ [signedOut]; console := console w |}).
Proof.
  intros H. rewrite initializeAuth_reads.
  destruct (startup_reads env (device w)) as [id v]. cbn [fst snd] in *.
  destruct id as [sid|]; [rewrite H|]; reflexivity.
Qed.

(** A device that holds an identity and a damaged user record keeps both. *)
Lemma initializeAuth_without_pair_witness :
  let env := Sample.env EmptyString in
  let w' := snd (initializeAuth env (initialWorld Sample.damaged_device)) in
  state w' = signedOut /\
  asyncStorage (device w') = asyncStorage Sample.damaged_device.
Proof.
  intros env w'. subst w'.
  rewrite (initializeAuth_without_pair env (initialWorld Sample.damaged_device));
    [|vm_compute; reflexivity].
  split; reflexivity.
Defined.

(** X6.  [login] never rejects and always ends with [isLoading = false].
    Either the rest of the state is as it was, or the state is signed in
    with a non-empty identity, and then both records are in storage: the
    identity, and the user built from the profile response. *)
Theorem login_outcomes (env : Env) (w : World) :
  let w' := snd (login env w) in
  fst (login env w) = Resolved tt /\
  isLoading (state w') = false /\
  (state w' = with_isLoading false (state w) \/
   exists sid response,
     sid <> EmptyString /\
     state w' = signedIn (toStoredUser response) sid (Api.partnerId response) /\
     persisted env (device w') sid (toStoredUser response)).
Proof.
  cbv zeta. unfold_session. crunch.
  all: cbn [fst snd device set_device clock tick state renders console
            with_storage asyncStorage isLoading with_isLoading signedIn].
  all: conjs; try done; auto.
  right. eexists _, _. split; [|split; [reflexivity|]].
  - intros ->. discriminate.
  - split; cbn.
    + rewrite lookup_insert_ne by done. apply lookup_insert_eq.
    + apply lookup_insert_eq.
Qed.

(** X7.  When the authorization comes back with an identity in the callback
    URL, the profile request succeeds and the store accepts the two writes,
    [login] ends signed in as that identity with the partner of the
    response, and both records are persisted. *)
Theorem login_signs_in (env : Env) (w : World) (url sid : string)
  (response : Api.AuthMeResponse) :
  let t := clock (device w) in
  openAuthSessionAsync env t (ApiClient.getLoginUrl env)
    (Linking_createURL env "/auth/callback") = Some (WebBrowser.Success url) ->
  url <> EmptyString ->
  URL_searchParams_get env url "spotifyId" = Some (Some sid) ->
  sid <> EmptyString ->
  auth_me env (S t) sid = Some response ->
  setItem_rejects env (S (S t)) StorageOps.SPOTIFY_ID = false ->
  setItem_rejects env (S (S (S t))) StorageOps.USER_DATA = false ->
  let w' := snd (login env w) in
  state w' = signedIn (toStoredUser response) sid (Api.partnerId response) /\
  persisted env (device w') sid (toStoredUser response).
Proof.
  intros t Hopen Hurl Hparam Hsid Hme Hw1 Hw2. subst t. cbv zeta.
  unfold_session. cbn [device set_device clock tick]. rewrite Hopen.
  rewrite (str_truthy_Some _ Hurl), Hparam, (str_truthy_Some _ Hsid).
  cbn [fst snd device set_device clock tick]. rewrite Hme.
  cbn [fst snd device set_device clock tick]. rewrite Hw1.
  cbn [fst snd device set_device clock tick with_storage asyncStorage]. rewrite Hw2.
  cbn. split; [reflexivity|]. split; cbn.
  - rewrite lookup_insert_ne by done. apply lookup_insert_eq.
  - apply lookup_insert_eq.
Qed.

Lemma login_signs_in_witness :
  let env := Sample.env "echoes://auth/callback?spotifyId=u1" in
  let w := {| device := Sample.empty_device; state := signedOut;
              renders := []; console := [] |} in
  state (snd (login env w)) = signedIn Sample.stored_u1 "u1" (Some "u2") /\
  persisted env (device (snd (login env w))) "u1" Sample.stored_u1.
Proof.
  intros env w.
  apply (login_signs_in env w "echoes://auth/callback?spotifyId=u1" "u1"
           (Sample.profile "u1" (Some "u2"))); try reflexivity; done.
Defined.

(** X8.  [logout] has two ways out, whatever the server and the store do.
    Either it resolves, and then the state is the signed-out state; or it
    rejects with the store's error, and then the state is the one it
    started from with [isLoading] set: authenticated stays authenticated
    and the loading flag is never cleared. *)
Theorem logout_outcomes (env : Env) (state_spotifyId : option string) (w : World) :
  let w' := snd (logout env state_spotifyId w) in
  (fst (logout env state_spotifyId w) = Resolved tt /\ state w' = signedOut) \/
  (fst (logout env state_spotifyId w) = Rejected StorageError /\
   state w' = with_isLoading true (state w)).
Proof.
  cbv zeta. unfold_session.
  destruct state_spotifyId as [sid|]; [destruct (Js.str_truthy (Some sid))|].
  all: crunch; cbn; auto.
Qed.

(** X9.  [refreshUser] never touches the persisted identity, and the state
    and the store move together: either the state and the store are both
    as before, or the profile request succeeded and both the stored user
    record and the user of the state are the one built from the response. *)
Theorem refreshUser_persists (env : Env) (state_spotifyId : option string) (w : World) :
  let w' := snd (refreshUser env state_spotifyId w) in
  asyncStorage (device w') !! StorageOps.SPOTIFY_ID
  = asyncStorage (device w) !! StorageOps.SPOTIFY_ID /\
  ((state w' = state w /\ asyncStorage (device w') = asyncStorage (device w)) \/
   exists sid response,
     state_spotifyId = Some sid /\
     auth_me env (clock (device w)) sid = Some response /\
     state w' = with_user (toStoredUser response) (Api.partnerId response) (state w) /\
     asyncStorage (device w')
     = <[StorageOps.USER_DATA := JSON_stringify env (toStoredUser response)]>
         (asyncStorage (device w))).
Proof.
  cbv zeta. unfold_session.
  destruct state_spotifyId as [sid|]; [destruct (Js.str_truthy (Some sid))|].
  all: crunch; cbn; auto.
  split; [by rewrite lookup_insert_ne|].
  right. by exists sid, a.
Qed.

(** ** The authorization callback screen *)

Import AuthCallbackScreen.

Ltac unfold_callback :=
  unfold handleCallback, session, setError, router_replace, refreshUser,
    try_finally, try_catch, bind, ret, throw, io, zoom,
    ApiClient.getMe, StorageOps.setStoredUser,
    StorageOps.setStoredSpotifyId, AsyncStorage.setItem, setState, console_log.


(** A successful callback when the session holds no identity. *)
Lemma handleCallback_success (env : Env) (sid : string)
  (response : Api.AuthMeResponse) (w : World) (screen : Screen) :
  let t := clock (device w) in
  sid <> EmptyString ->
  auth_me env t sid = Some response ->
  setItem_rejects env (S t) StorageOps.SPOTIFY_ID = false ->
  setItem_rejects env (S (S t)) StorageOps.USER_DATA = false ->
  handleCallback env (Some sid) None (w, screen) =
  (Resolved tt,
   ({| device :=
         {| asyncStorage :=
              <[StorageOps.USER_DATA := JSON_stringify env (toStoredUser response)]>
                (<[StorageOps.SPOTIFY_ID := sid]> (asyncStorage (device w)));
            clock := S (S (S t)) |};
       state := state w; renders := renders w; console := console w |},
    {| error := error screen; replaced_with := Some "/(tabs)" |})).
Proof.
  intros t Hsid Hme Hw1 Hw2. subst t.
  unfold handleCallback. rewrite (str_truthy_Some _ Hsid).
  unfold_callback. cbn [fst snd device set_device clock tick]. rewrite Hme.
  cbn [fst snd device set_device clock tick]. rewrite Hw1.
  cbn [fst snd device set_device clock tick with_storage asyncStorage]. rewrite Hw2.
  reflexivity.
Qed.

(** X11.  When the session holds no identity, the [refreshUser] the screen
    calls is a no-op, so a successful callback persists both records and
    navigates, but the session state stays what it was: not authenticated
    stays not authenticated until the next start. *)
Theorem handleCallback_does_not_sign_in (env : Env) (sid : string)
  (response : Api.AuthMeResponse) (w : World) (screen : Screen) :
  let t := clock (device w) in
  sid <> EmptyString ->
  auth_me env t sid = Some response ->
  setItem_rejects env (S t) StorageOps.SPOTIFY_ID = false ->
  setItem_rejects env (S (S t)) StorageOps.USER_DATA = false ->
  let r := handleCallback env (Some sid) None (w, screen) in
  state (fst (snd r)) = state w /\
  renders (fst (snd r)) = renders w /\
  persisted env (device (fst (snd r))) sid (toStoredUser response) /\
  replaced_with (snd (snd r)) = Some "/(tabs)".
Proof.
  intros t Hsid Hme Hw1 Hw2. cbv zeta.
  rewrite (handleCallback_success env sid response w screen Hsid Hme Hw1 Hw2).
  unfold persisted. conjs; try done; cbn [fst snd device asyncStorage].
  - rewrite lookup_insert_ne by done. apply lookup_insert_eq.
  - apply lookup_insert_eq.
Qed.

Lemma handleCallback_does_not_sign_in_witness :
  let env := Sample.env EmptyString in
  let w := {| device := Sample.empty_device; state := signedOut;
              renders := []; console := [] |} in
  let r := handleCallback env (Some "u1") None (w, initialScreen) in
  isAuthenticated (state (fst (snd r))) = false /\
  persisted env (device (fst (snd r))) "u1" Sample.stored_u1.
Proof.
  intros env w r.
  destruct (handleCallback_does_not_sign_in env "u1" (Sample.profile "u1" (Some "u2"))
              w initialScreen) as (Hs & _ & Hp & _); try reflexivity; [done|].
  subst r. split; [by rewrite Hs | exact Hp].
Defined.

(** X12.  What the callback screen persisted is picked up at the next
    start: on a store that accepts every call, after a successful callback
    for an identity (the session holding none), [initializeAuth] run by a
    new provider on the same device ends signed in as that identity with
    the profile and partner of its own request, provided the stored text
    parses to a truthy value and the backend still answers. *)
Theorem callback_then_restart (env : Env) (sid : string)
  (response again : Api.AuthMeResponse) (v : Js.json) (w : World) (screen : Screen) :
  let t := clock (device w) in
  store_accepts env ->
  sid <> EmptyString ->
  auth_me env t sid = Some response ->
  JSON_stringify env (toStoredUser response) <> EmptyString ->
  JSON_parse env (JSON_stringify env (toStoredUser response)) = Some v ->
  Js.truthy v = true ->
  auth_me env (5 + t) sid = Some again ->
  let d' := device (fst (snd (handleCallback env (Some sid) None (w, screen)))) in
  state (snd (initializeAuth env (initialWorld d')))
  = signedIn (toStoredUser again) sid (Api.partnerId again).
Proof.
  intros t Hstore Hsid Hme Hne Hparse Htruthy Hagain. subst t. cbv zeta.
  rewrite (handleCallback_success env sid response w screen Hsid Hme);
    [|apply Hstore..].
  cbn [fst snd device].
  set (d' := {| asyncStorage := _; clock := _ |}).
  assert (Hreads : startup_reads env d' = (Some sid, v)).
  { unfold startup_reads. rewrite getStoredSpotifyId_run.
    rewrite (proj1 (Hstore _ _)). cbn [fst].
    erewrite getStoredUser_parsed; [|apply Hstore| |exact Hne|exact Hparse].
    - cbn [fst]. f_equal. subst d'. cbn [asyncStorage].
      rewrite lookup_insert_ne by done. apply lookup_insert_eq.
    - subst d'. cbn [tick asyncStorage]. apply lookup_insert_eq. }
  rewrite initializeAuth_reads. cbn [device initialWorld]. rewrite Hreads.
  cbn [fst snd]. rewrite (str_truthy_Some _ Hsid), Htruthy. cbn [andb].
  unfold_session. cbn [fst snd device set_device clock tick]. subst d'.
  cbn [clock]. cbn [Nat.add] in Hagain. rewrite Hagain.
  cbn [fst snd device set_device clock tick].
  rewrite (proj1 (proj2 (Hstore _ _))). reflexivity.
Qed.

Lemma callback_then_restart_witness :
  let env := Sample.env EmptyString in
  let w := {| device := Sample.empty_device; state := signedOut;
              renders := []; console := [] |} in
  let d' := device (fst (snd (handleCallback env (Some "u1") None (w, initialScreen)))) in
  store_accepts env /\
  state (snd (initializeAuth env (initialWorld d')))
  = signedIn Sample.stored_u1 "u1" (Some "u2").
Proof.
  intros env w d'.
  assert (Hs : store_accepts env) by (intros t key; by conjs).
  split; [exact Hs|].
  apply (callback_then_restart env "u1" (Sample.profile "u1" (Some "u2"))
           (Sample.profile "u1" (Some "u2")) (Js.JObject [("id", Js.JString "u1")])
           w initialScreen Hs); try reflexivity; done.
Defined.

(** ** The presence channel: what the view can rely on *)

Module Channel.
Import SocketContext Presence Screens.
Local Open Scope list_scope.

(** On an open socket of a tidy provider an event does to the view what its
    one presence listener does, whatever consumers have registered. *)
Lemma deliver_view i e p s :
  tidy p -> sockets p !! i = Some s -> active s = true ->
  view (deliver i e p) = view (presence e p).
Proof.
  intros Ht Hs Ha. eapply deliver_view_wired; [by eapply tidy_wired|done..].
Qed.

Lemma in_step_frame p q :
  view q = view p -> socketRef q = socketRef p ->
  (forall j, connected <$> sockets q !! j = connected <$> sockets p !! j) ->
  in_step p -> in_step q.
Proof.
  unfold view, in_step, current_connected. intros [= H1 H2 H3] Hr Hs [Hc Hl].
  rewrite H1, H2, H3, Hr. split; [|exact Hl].
  rewrite Hc. destruct (socketRef p) as [i|]; [|reflexivity].
  specialize (Hs i). by destruct (sockets q !! i), (sockets p !! i); inversion Hs.
Qed.

Lemma in_step_idle p :
  view p = (false, false, None) -> socketRef p = None -> in_step p.
Proof.
  unfold view, in_step, current_connected. intros [= H1 H2 H3] Hr.
  rewrite H1, H3, Hr. by split.
Qed.

Lemma view_idle p : tidy p -> socketRef p = None -> view p = (false, false, None).
Proof.
  intros Ht Hr. destruct (tidy_unheld p Ht Hr) as (H1 & H2 & H3).
  unfold view. by rewrite H1, H2, H3.
Qed.

Lemma in_step_update_listeners i f p :
  (forall s, connected (f s) = connected s) ->
  in_step p -> in_step (update_socket i f p).
Proof.
  intros Hf. apply in_step_frame.
  - by rewrite update_socket_spec.
  - by rewrite update_socket_spec.
  - intros j. rewrite lookup_update_socket. case_decide; [|reflexivity].
    destruct (sockets p !! j); cbn; [by rewrite Hf | reflexivity].
Qed.

Lemma in_step_effect a spotifyId p :
  tidy p -> settled p -> in_step (effect a spotifyId p).
Proof.
  intros Ht Hs. destruct (tidy_run_cleanup p Ht Hs) as (Ht' & Hr' & _).
  pose proof (view_idle _ Ht' Hr') as Hv.
  unfold effect, effect_body.
  destruct (a && Js.str_truthy spotifyId).
  - rewrite connectSocket_opens by by apply current_connected_idle.
    split; cbn.
    + unfold current_connected. cbn. rewrite lookup_app_r by lia.
      rewrite Nat.sub_diag. cbn. by injection Hv.
    + intros d Hd. injection Hv as _ _ Hst. congruence.
  - rewrite disconnectSocket_idle by done. by apply in_step_idle.
Qed.

Lemma in_step_deliver i e p : tidy p -> in_step p -> in_step (deliver i e p).
Proof.
  intros Ht [Hc Hl].
  destruct (sockets p !! i) as [s|] eqn:Hs;
    [destruct (active s) eqn:Ha|]; [|by rewrite deliver_closed; [|congruence]..].
  pose proof (tidy_active p Ht i s Hs Ha) as Hr.
  pose proof (lookup_lt_Some _ _ _ Hs) as Hlt.
  pose proof (deliver_view i e p s Ht Hs Ha) as Hv.
  assert (Hcur : current_connected (deliver i e p) = connected (flagged e s)).
  { unfold current_connected. destruct (deliver_frame i e p) as (-> & _).
    rewrite Hr, (deliver_sockets i e p s Hs Ha).
    by rewrite list_lookup_insert_eq. }
  assert (Hcs : isConnected p = connected s).
  { rewrite Hc. unfold current_connected. by rewrite Hr, Hs. }
  unfold in_step. rewrite Hcur. unfold view in Hv. injection Hv as -> -> ->.
  destruct e as [|[]| | |data| |]; cbn; split; try done.
  - by destruct (isListening data).
  - destruct (isListening data) eqn:Hd; cbn; [done|]. intros d [= <-]. congruence.
Qed.

Lemma in_step_step a p :
  tidy p -> settled p -> in_step p -> in_step (step p a).
Proof.
  intros Ht Hs Hi. destruct a as [a sid| |i e|m|cb|cb|d]; cbn [step].
  - by apply in_step_effect.
  - destruct (tidy_run_cleanup p Ht Hs) as (Ht' & Hr' & _).
    apply in_step_idle; [by apply view_idle | exact Hr'].
  - by apply in_step_deliver.
  - unfold emit. destruct (socketRef p); [|exact Hi].
    revert Hi. by apply in_step_frame.
  - cbn. unfold register. cbn [socketRef set_closures].
    destruct (socketRef p) eqn:Hr.
    + apply in_step_update_listeners; [done|]. revert Hi. by apply in_step_frame.
    + revert Hi. by apply in_step_frame.
  - cbn. unfold register. cbn [socketRef set_closures].
    destruct (socketRef p) eqn:Hr.
    + apply in_step_update_listeners; [done|]. revert Hi. by apply in_step_frame.
    + revert Hi. by apply in_step_frame.
  - unfold detach. destruct (socketRef p); [|exact Hi].
    by apply in_step_update_listeners.
Qed.

Lemma in_step_run actions p :
  tidy p -> settled p -> in_step p -> in_step (run actions p).
Proof.
  revert p. induction actions as [|a actions IH]; intros p Ht Hs Hi; [done|].
  cbn. destruct (tidy_step a p Ht Hs). apply IH; try done. by apply in_step_step.
Qed.

Lemma in_step_reachable actions : in_step (run actions initial).
Proof.
  apply in_step_run; [apply tidy_initial..|]. by split.
Qed.

(** X13.  In every state a mounted provider can reach, [isConnected] is the
    transport's flag of the socket the provider holds: it is true exactly
    when a socket is held, open and connected; and while no socket is held
    the view shows the defaults. *)
Theorem isConnected_mirrors_socket (actions : list Action) :
  let p := run actions initial in
  isConnected p = current_connected p /\
  (isConnected p = true <->
   exists i s, socketRef p = Some i /\ sockets p !! i = Some s /\
               active s = true /\ connected s = true) /\
  (socketRef p = None -> view p = (false, false, None)).
Proof.
  intros p. pose proof (tidy_reachable actions) as Ht. fold p in Ht.
  destruct (in_step_reachable actions) as [Hc _]. fold p in Hc.
  conjs; [exact Hc| |by apply view_idle].
  rewrite Hc. unfold current_connected. split.
  - destruct (socketRef p) as [i|] eqn:Hr; [|done].
    destruct (tidy_ref p Ht i Hr) as (s & Hs). rewrite Hs.
    intros Hcon. exists i, s. conjs; try done. by eapply tidy_connected.
  - by intros (i & s & -> & -> & _ & ->).
Qed.

(** X14.  In every state a mounted provider can reach, a partner status
    that says the partner is listening is never shown next to an offline
    partner. *)
Theorem listening_partner_is_online (actions : list Action) (status : PartnerStatus) :
  let p := run actions initial in
  partnerStatus p = Some status ->
  isListening status = true ->
  isPartnerOnline p = true.
Proof.
  intros p. destruct (in_step_reachable actions) as [_ Hl]. apply Hl.
Qed.

Lemma listening_partner_is_online_witness :
  let p := run [Effect true (Some "u1"); Transport 0 Connect;
                Transport 0 (PartnerStatusChanged (now_playing true "X"));
                Transport 0 (PartnerOnline "u2");
                Transport 0 (SessionSync (command "X"))] initial in
  partnerStatus p = Some (now_playing true "X") /\ isPartnerOnline p = true.
Proof.
  intros p. split; [vm_compute; reflexivity|].
  apply (listening_partner_is_online _ (now_playing true "X")); vm_compute; reflexivity.
Defined.

(** X15.  In every state a mounted provider can reach, an event delivered
    on an open socket changes the view exactly as the one listener
    [connectSocket] registered for it does, once, whatever consumers have
    registered or detached; [session:sync] and [session:joined] do not
    change the view at all.  The socket stays held, with the flags the
    transport gives it (it stays open unless the event is the [disconnect]
    that closes it for good), its listeners are as before, and nothing is
    emitted. *)
Theorem event_reaches_its_listener (actions : list Action) (i : nat) (s : Socket)
  (e : Event) :
  let p := run actions initial in
  sockets p !! i = Some s ->
  active s = true ->
  let p' := deliver i e p in
  view p' = view (presence e p) /\
  socketRef p' = Some i /\
  sockets p' !! i = Some (flagged e s) /\
  listeners (flagged e s) = listeners s /\
  emitted p' = emitted p.
Proof.
  intros p Hs Ha p'. pose proof (tidy_reachable actions) as Ht. fold p in Ht.
  subst p'. destruct (deliver_frame i e p) as (Hr & _ & _ & He).
  conjs.
  - by apply (deliver_view i e p s).
  - rewrite Hr. by apply (tidy_active p Ht i s).
  - rewrite (deliver_sockets i e p s Hs Ha). apply list_lookup_insert_eq.
    by eapply lookup_lt_Some.
  - apply listeners_flagged.
  - exact He.
Qed.

Lemma event_reaches_its_listener_witness :
  let p := run [Effect true (Some "u1"); OnSyncCommand 7; Transport 0 Connect] initial in
  let p' := deliver 0 (PartnerOnline "u2") p in
  view p = (true, false, None) /\ view p' = (true, true, None).
Proof.
  cbv zeta. split; [vm_compute; reflexivity|].
  match goal with
  | |- view (deliver 0 ?e (run ?acts initial)) = _ =>
      assert (Hs : exists s, sockets (run acts initial) !! 0 = Some s /\ active s = true)
        by (eexists; split; vm_compute; reflexivity);
      destruct Hs as (s & Hs & Ha);
      destruct (event_reaches_its_listener acts 0 s e Hs Ha) as (Hv & _)
  end.
  rewrite Hv. vm_compute. reflexivity.
Defined.

(** X16.  When the transport reports [disconnect] on the open socket, the
    view goes back to the defaults (not connected, partner offline, no
    status) and the provider keeps holding the socket.  When the library is
    reconnecting, the socket is still the one open connection, and a later
    [connect] on it sets [isConnected] again, with the partner still offline
    and no status until new events arrive.  When the socket is closed for
    good (by the server, or with the reconnection attempts used up), no
    connection is open any more although a socket is held: no event on any
    socket changes anything, an emit is handed to the closed socket, and
    this lasts until the effect runs again. *)
Theorem transport_disconnect_then_reconnect (actions : list Action) (i : nat) (s : Socket)
  (fate : Fate) :
  let p := run actions initial in
  sockets p !! i = Some s ->
  active s = true ->
  let p' := deliver i (Disconnect fate) p in
  view p' = (false, false, None) /\
  socketRef p' = Some i /\
  match fate with
  | reconnecting =>
      length (open_connections p') = 1 /\
      view (deliver i Connect p') = (true, false, None)
  | closed_for_good =>
      open_connections p' = [] /\
      (forall later,
         Forall (fun a => match a with Transport _ _ => True | _ => False end) later ->
         run later p' = p') /\
      (forall m, emitted (emit m p') = emitted p' ++ [(i, m)]) /\
      (forall spotifyId,
         spotifyId <> EmptyString ->
         open_connections (effect true (Some spotifyId) p')
         = [fresh_socket (Some spotifyId)])
  end.
Proof.
  intros p Hs Ha p'. pose proof (tidy_reachable actions) as Ht. fold p in Ht.
  pose proof (lookup_lt_Some _ _ _ Hs) as Hlt.
  assert (Hv : view p' = (false, false, None)).
  { subst p'. rewrite (deliver_view i _ p s Ht Hs Ha). by destruct fate. }
  assert (Hs' : sockets p' !! i = Some (flagged (Disconnect fate) s)).
  { subst p'. rewrite (deliver_sockets i _ p s Hs Ha). by apply list_lookup_insert_eq. }
  assert (Ht' : tidy p') by by apply tidy_deliver.
  assert (Hr' : socketRef p' = Some i).
  { subst p'. destruct (deliver_frame i (Disconnect fate) p) as (-> & _).
    by apply (tidy_active p Ht i s). }
  assert (Hset' : settled p').
  { eapply settled_frame; [| |apply (settled_reachable actions)];
      subst p'; by destruct (deliver_frame i (Disconnect fate) p) as (? & ? & _). }
  conjs; try done.
  destruct fate; cbn [flagged] in Hs'; conjs.
  - pose proof (tidy_at_most_one p' Ht') as Hle.
    assert (with_connected false s ∈ open_connections p').
    { unfold open_connections. apply list_elem_of_filter. split; [exact Ha|].
      by eapply list_elem_of_lookup_2. }
    destruct (open_connections p') as [|x [|y l]]; cbn in *; [|done|lia].
    by apply elem_of_nil in H.
  - rewrite (deliver_view i Connect p' _ Ht' Hs' Ha).
    unfold view in *. cbn. by injection Hv as _ -> ->.
  - apply no_open_connection. intros j s' Hj.
    destruct (active s') eqn:Ha'; [|reflexivity].
    pose proof (tidy_active p' Ht' j s' Hj Ha') as Hj'.
    assert (j = i) as -> by congruence. rewrite Hs' in Hj. by inversion Hj; subst.
  - assert (Hquiet : forall j e, deliver j e p' = p').
    { intros j e. apply deliver_closed. intros s' Hj.
      destruct (active s') eqn:Ha'; [|reflexivity].
      pose proof (tidy_active p' Ht' j s' Hj Ha') as Hj'.
      assert (j = i) as -> by congruence. rewrite Hs' in Hj. by inversion Hj; subst. }
    induction 1 as [|a later Hx _ IH]; [reflexivity|].
    destruct a; try done. cbn [run fold_left step]. rewrite Hquiet. exact IH.
  - intros m. unfold emit. by rewrite Hr'.
  - intros spotifyId Hne.
    apply (effect_opens_one true (Some spotifyId) p' Ht' Hset').
    by rewrite (str_truthy_Some _ Hne).
Qed.

(** A listening partner, then the transport is lost and comes back; and
    the same with the server closing the socket. *)
Lemma transport_disconnect_then_reconnect_witness :
  let p := run [Effect true (Some "u1"); Transport 0 Connect;
                Transport 0 (PartnerStatusChanged (now_playing true "X"))] initial in
  view p = (true, true, Some (now_playing true "X")) /\
  view (deliver 0 (Disconnect reconnecting) p) = (false, false, None) /\
  view (deliver 0 Connect (deliver 0 (Disconnect reconnecting) p)) = (true, false, None) /\
  open_connections (deliver 0 (Disconnect closed_for_good) p) = [] /\
  run [Transport 0 Connect; Transport 0 (PartnerOnline "u2")]
    (deliver 0 (Disconnect closed_for_good) p)
  = deliver 0 (Disconnect closed_for_good) p.
Proof.
  cbv zeta.
  match goal with
  | |- view (run ?acts initial) = _ /\ _ =>
      assert (Hs : exists s, sockets (run acts initial) !! 0 = Some s /\ active s = true)
        by (eexists; split; vm_compute; reflexivity);
      destruct Hs as (s & Hs & Ha);
      destruct (transport_disconnect_then_reconnect acts 0 s reconnecting Hs Ha)
        as (H1 & _ & _ & H2);
      destruct (transport_disconnect_then_reconnect acts 0 s closed_for_good Hs Ha)
        as (_ & _ & H3 & H4 & _)
  end.
  split; [vm_compute; reflexivity|].
  split; [exact H1|]. split; [exact H2|]. split; [exact H3|].
  apply H4. by repeat constructor.
Defined.

(** X17.  A [partner:offline] event always leaves the partner offline with
    no status, even when a [partner:status] saying the partner is listening
    was delivered just before; neither event touches [isConnected]. *)
Theorem partner_offline_clears_status (actions : list Action) (i : nat) (s : Socket)
  (data : PartnerStatus) (partner : string) :
  let p := run actions initial in
  sockets p !! i = Some s ->
  active s = true ->
  let p1 := deliver i (PartnerStatusChanged data) p in
  let p2 := deliver i (PartnerOffline partner) p1 in
  view p2 = (isConnected p, false, None).
Proof.
  intros p Hs Ha p1 p2. pose proof (tidy_reachable actions) as Ht. fold p in Ht.
  pose proof (lookup_lt_Some _ _ _ Hs) as Hlt.
  assert (Hs1 : sockets p1 !! i = Some s).
  { subst p1. rewrite (deliver_sockets i _ p s Hs Ha). by apply list_lookup_insert_eq. }
  assert (Ht1 : tidy p1) by by apply tidy_deliver.
  pose proof (deliver_view i (PartnerStatusChanged data) p s Ht Hs Ha) as Hv1.
  fold p1 in Hv1.
  subst p2. rewrite (deliver_view i _ p1 s Ht1 Hs1 Ha).
  unfold view in *. cbn in *. injection Hv1 as -> _ _.
  by destruct (isListening data).
Qed.

Lemma partner_offline_clears_status_witness :
  let p := run [Effect true (Some "u1"); Transport 0 Connect] initial in
  view (deliver 0 (PartnerOffline "u2")
          (deliver 0 (PartnerStatusChanged (now_playing true "X")) p))
  = (true, false, None).
Proof.
  cbv zeta.
  match goal with
  | |- view (deliver 0 _ (deliver 0 _ (run ?acts initial))) = _ =>
      assert (Hs : exists s, sockets (run acts initial) !! 0 = Some s /\ active s = true)
        by (eexists; split; vm_compute; reflexivity);
      destruct Hs as (s & Hs & Ha);
      exact (partner_offline_clears_status acts 0 s (now_playing true "X") "u2" Hs Ha)
  end.
Defined.

(** X18.  When the effect runs for a session that is not authenticated, or
    has no identity, or an empty one, the provider ends with no socket held,
    no connection open and the default view, whatever state it was in. *)
Theorem effect_without_session_disconnects (actions : list Action)
  (isAuthenticated : bool) (spotifyId : option string) :
  isAuthenticated && Js.str_truthy spotifyId = false ->
  let p' := effect isAuthenticated spotifyId (run actions initial) in
  socketRef p' = None /\
  open_connections p' = [] /\
  view p' = (false, false, None).
Proof.
  intros Hs p'. pose proof (tidy_reachable actions) as Ht.
  destruct (tidy_run actions initial) as [_ Hset]; [apply tidy_initial..|].
  destruct (tidy_effect isAuthenticated spotifyId _ Ht Hset) as [Ht' _].
  fold p' in Ht'.
  assert (Hr : socketRef p' = None).
  { subst p'. unfold effect, effect_body. rewrite Hs. cbn.
    apply disconnectSocket_socketRef. }
  conjs; [exact Hr| |by apply view_idle].
  apply no_open_connection. intros j s. by apply tidy_quiet.
Qed.

Lemma effect_without_session_disconnects_witness :
  let p' := effect true (Some EmptyString)
              (run [Effect true (Some "u1"); Transport 0 Connect] initial) in
  socketRef p' = None /\ open_connections p' = [] /\ view p' = (false, false, None).
Proof.
  exact (effect_without_session_disconnects
           [Effect true (Some "u1"); Transport 0 Connect] true (Some EmptyString) eq_refl).
Defined.

(** X19.  When the effect runs for an authenticated session with a
    non-empty identity, the provider ends holding a new socket made for that
    identity, and that socket is the only open connection: not yet
    connected, with the five listeners of [connectSocket] and none of the
    handlers consumers had registered on the socket it replaces.  The view
    shows the defaults. *)
Theorem effect_with_session_reconnects (actions : list Action) (spotifyId : string) :
  spotifyId <> EmptyString ->
  let p := run actions initial in
  let p' := effect true (Some spotifyId) p in
  socketRef p' = Some (length (sockets p)) /\
  open_connections p' = [fresh_socket (Some spotifyId)] /\
  view p' = (false, false, None).
Proof.
  intros Hne p p'. pose proof (tidy_reachable actions) as Ht. fold p in Ht.
  destruct (tidy_run actions initial) as [_ Hset]; [apply tidy_initial..|].
  fold p in Hset.
  destruct (tidy_run_cleanup p Ht Hset) as (Htc & Hrc & _).
  subst p'. unfold effect, effect_body. cbn [andb].
  rewrite (str_truthy_Some _ Hne).
  rewrite connectSocket_opens by by apply current_connected_idle.
  conjs.
  - cbn. by rewrite run_cleanup_length.
  - unfold open_connections. cbn. rewrite filter_app.
    rewrite no_open_connection by (intros j s; by apply tidy_quiet).
    reflexivity.
  - change (view (run_cleanup p) = (false, false, None)). by apply view_idle.
Qed.

Lemma effect_with_session_reconnects_witness :
  let p := run [Effect true (Some "u1"); OnSyncCommand 7; Transport 0 Connect] initial in
  let p' := effect true (Some "u9") p in
  socketRef p' = Some 1 /\
  map listeners (open_connections p') = [base_listeners] /\
  map query (open_connections p') = [Some "u9"].
Proof.
  cbv zeta.
  destruct (effect_with_session_reconnects
              [Effect true (Some "u1"); OnSyncCommand 7; Transport 0 Connect] "u9")
    as (H1 & H2 & _); [done|].
  rewrite H2. split; [exact H1|]. split; reflexivity.
Defined.

(** X20.  After the provider unmounts, nothing reaches it any more: every
    transport event on every socket and every emit leaves it exactly as it
    is, with no connection open and the default view. *)
Theorem unmount_silences (actions : list Action) (i : nat) (e : Event) (m : Outbound) :
  let p' := unmount (run actions initial) in
  deliver i e p' = p' /\
  emit m p' = p' /\
  open_connections p' = [] /\
  view p' = (false, false, None).
Proof.
  intros p'. pose proof (tidy_reachable actions) as Ht.
  destruct (tidy_run actions initial) as [_ Hset]; [apply tidy_initial..|].
  destruct (tidy_run_cleanup _ Ht Hset) as (Htc & Hrc & _).
  fold (unmount (run actions initial)) in Htc, Hrc. fold p' in Htc, Hrc.
  conjs.
  - apply deliver_closed. intros s. by apply tidy_quiet.
  - unfold emit. by rewrite Hrc.
  - apply no_open_connection. intros j s. by apply tidy_quiet.
  - by apply view_idle.
Qed.

(** X21.  An emit ([startListening], [updateListening], [stopListening],
    [joinPartnerSession]) is dropped without a trace when no socket is
    held.  Otherwise the message is handed, once, to the socket held,
    whatever state that socket is in.  While [isConnected] is true that
    socket is open and connected; while it is false the message goes to a
    socket that is not connected, which may be closed for good.  In every
    case the view, the sockets and their listeners are untouched. *)
Theorem emit_goes_to_the_held_socket (actions : list Action) (m : Outbound) :
  let p := run actions initial in
  let p' := emit m p in
  (socketRef p = None -> p' = p) /\
  (forall i, socketRef p = Some i ->
     emitted p' = emitted p ++ [(i, m)] /\
     exists s, sockets p !! i = Some s /\ connected s = isConnected p /\
               (connected s = true -> active s = true)) /\
  view p' = view p /\
  sockets p' = sockets p.
Proof.
  intros p p'. pose proof (tidy_reachable actions) as Ht. fold p in Ht.
  destruct (in_step_reachable actions) as [Hc _]. fold p in Hc.
  subst p'. unfold emit. destruct (socketRef p) as [i|] eqn:Hr; conjs; try done.
  intros j [= <-]. split; [reflexivity|].
  destruct (tidy_ref p Ht i Hr) as (s & Hs). exists s. conjs; [done| |].
  - rewrite Hc. unfold current_connected. by rewrite Hr, Hs.
  - by apply (tidy_connected p Ht i s).
Qed.

(** The server closes the socket; the emit that follows is handed to the
    closed socket. *)
Example emit_after_server_disconnect :
  let p := run [Effect true (Some "u1"); Transport 0 Connect;
                Transport 0 (Disconnect closed_for_good); Emit SessionJoin] initial in
  emitted p = [(0, SessionJoin)] /\ map active (sockets p) = [false] /\
  isConnected p = false.
Proof. split; [|split]; vm_compute; reflexivity. Qed.

Example emits_before_and_after_connecting :
  emitted (run [Emit ListeningStop; Effect true (Some "u1"); Emit SessionJoin;
                Unmount; Emit ListeningStop] initial)
  = [(0, SessionJoin)].
Proof. vm_compute. reflexivity. Qed.

(** *** Registrations made by screens *)

Lemma fresh_handler_absent n s event g :
  wired n s ->
  match g with
  | sync_handler c _ | joined_handler c _ => n <= c
  | _ => False
  end ->
  (event, g) ∉ listeners s.
Proof.
  intros (extra & -> & Hx) Hg Hin. apply elem_of_app in Hin as [Hin|Hin].
  - unfold base_listeners in Hin.
    repeat (apply elem_of_cons in Hin as [Hin|Hin]; [by inversion Hin; subst|]).
    by apply elem_of_nil in Hin.
  - rewrite Forall_forall in Hx. specialize (Hx _ Hin).
    destruct g; cbn in Hx, Hg; try done; lia.
Qed.

Lemma with_listeners_same s : with_listeners (listeners s) s = s.
Proof. by destruct s. Qed.

Lemma register_detach_sockets p d :
  tidy p ->
  match d with off_sync c _ | off_joined c _ => closures p <= c end ->
  sockets (detach d (register (detach_event d) (detach_handler d) p)) = sockets p.
Proof.
  intros Ht Hd. destruct (socketRef p) as [j|] eqn:Hr.
  2:{ rewrite register_idle by done. unfold detach. cbn. by rewrite Hr. }
  destruct (tidy_ref p Ht j Hr) as (s & Hs).
  destruct (register_held (detach_event d) (detach_handler d) p j s Hr Hs)
    as (Hs1 & Ho1 & _ & Hr1 & _).
  destruct (detach_held d _ j _ Hr1 Hs1) as (Hs2 & Ho2 & _).
  apply list_eq. intros i. destruct (decide (j = i)) as [<-|Hne].
  - rewrite Hs2, Hs. f_equal. cbn [listeners with_listeners].
    rewrite remove_first_fresh, app_nil_r.
    + by destruct s.
    + apply (fresh_handler_absent (closures p)); [by eapply tidy_wired|].
      by destruct d.
  - by rewrite Ho2, Ho1.
Qed.

Lemma view_update_socket i f p : view (update_socket i f p) = view p.
Proof. by rewrite update_socket_spec. Qed.

Lemma socketRef_update_socket i f p : socketRef (update_socket i f p) = socketRef p.
Proof. by rewrite update_socket_spec. Qed.

Lemma view_detach_register d event g p :
  view (detach d (register event g p)) = view p.
Proof.
  unfold detach, register, socket_on, socket_off. cbn [socketRef set_closures].
  destruct (socketRef p) eqn:Hr.
  - rewrite socketRef_update_socket. cbn [socketRef set_closures]. rewrite Hr.
    by rewrite !view_update_socket.
  - cbn [socketRef set_closures]. by rewrite Hr.
Qed.

(** X22.  Registering a callback and then calling the function the
    registration returned puts every socket back exactly as it was,
    listeners included, for [onSyncCommand] and for [onSessionJoined], in
    every state a mounted provider can reach, with or without a socket
    held; the view does not change either. *)
Theorem register_then_detach_restores (actions : list Action) (callback : nat) :
  let p := run actions initial in
  let sync := onSyncCommand callback p in
  let joined := onSessionJoined callback p in
  sockets (detach (fst sync) (snd sync)) = sockets p /\
  sockets (detach (fst joined) (snd joined)) = sockets p /\
  view (detach (fst sync) (snd sync)) = view p /\
  view (detach (fst joined) (snd joined)) = view p.
Proof.
  intros p sync joined. pose proof (tidy_reachable actions) as Ht. fold p in Ht.
  subst sync joined. unfold onSyncCommand, onSessionJoined. cbn [fst snd].
  conjs.
  - by apply (register_detach_sockets p (off_sync (closures p) callback)).
  - by apply (register_detach_sockets p (off_joined (closures p) callback)).
  - apply view_detach_register.
  - apply view_detach_register.
Qed.

Lemma heard_joined h g callback e :
  heard h [("session:joined", joined_handler g callback)] e =
  if decide (g = h)
  then match e with SessionJoined a b => [JoinedArg a b] | _ => [] end
  else [].
Proof.
  rewrite heard_one. by destruct e; cbn; repeat case_decide.
Qed.

Lemma deliver_listeners i e p s :
  sockets p !! i = Some s ->
  exists s', sockets (deliver i e p) !! i = Some s' /\
             listeners s' = listeners s /\ (active s' = true -> active s = true).
Proof.
  intros Hs. destruct (active s) eqn:Ha.
  - exists (flagged e s). rewrite (deliver_sockets i e p s Hs Ha).
    rewrite list_lookup_insert_eq by by eapply lookup_lt_Some.
    by rewrite listeners_flagged.
  - rewrite deliver_closed by (intros s'; congruence). exists s. by rewrite Ha.
Qed.

Lemma deliver_all_socket i es p s :
  sockets p !! i = Some s ->
  socketRef (deliver_all i es p) = socketRef p /\
  exists s', sockets (deliver_all i es p) !! i = Some s' /\
             listeners s' = listeners s /\ (active s' = true -> active s = true).
Proof.
  revert p s. induction es as [|e es IH]; intros p s Hs.
  - split; [done|]. by exists s.
  - cbn [deliver_all fold_left]. fold (deliver_all i es (deliver i e p)).
    destruct (deliver_listeners i e p s Hs) as (s1 & Hs1 & Hl1 & Ha1).
    destruct (IH (deliver i e p) s1 Hs1) as (Hr & s' & Hs' & Hl & Ha').
    split.
    + rewrite Hr. by destruct (deliver_frame i e p) as (-> & _).
    + exists s'. conjs; [done|congruence|tauto].
Qed.

(** X23.  The now-playing screen registers one callback for sync commands
    and one for joined sessions.  When a socket is held at that moment, the
    first is called with every [session:sync] command and the second with
    every [session:joined] notice that arrives on it, in order and once
    each, and with nothing else.  After the screen's cleanup the socket's
    listeners are what they were before the screen mounted, and neither
    callback is called again. *)
Theorem nowPlaying_subscriptions (actions : list Action) (syncCallback joinedCallback : nat)
  (j : nat) (es later : list Event) :
  let p := run actions initial in
  socketRef p = Some j ->
  let mounted := nowPlaying_effect syncCallback joinedCallback p in
  let p3 := deliver_all j es (snd mounted) in
  let p4 := nowPlaying_cleanup (fst mounted) p3 in
  received (closures p) p3 = sync_arguments (arrivals p j es) /\
  received (S (closures p)) p3 = joined_arguments (arrivals p j es) /\
  (exists s s4, sockets p !! j = Some s /\ sockets p4 !! j = Some s4 /\
                listeners s4 = listeners s) /\
  received (closures p) (deliver_all j later p4) = sync_arguments (arrivals p j es) /\
  received (S (closures p)) (deliver_all j later p4) = joined_arguments (arrivals p j es).
Proof.
  intros p Hr mounted p3 p4.
  pose proof (tidy_reachable actions) as Ht. fold p in Ht.
  destruct (tidy_ref p Ht j Hr) as (s & Hs).
  pose proof (tidy_wired p Ht j s Hs) as Hw.
  set (n := closures p) in *.
  set (x1 := ("session:sync", sync_handler n syncCallback)).
  set (x2 := ("session:joined", joined_handler (S n) joinedCallback)).
  destruct (register_held "session:sync" (sync_handler n syncCallback) p j s Hr Hs)
    as (Hs1 & _ & Hc1 & Hr1 & Hn1).
  set (p1 := register "session:sync" (sync_handler n syncCallback) p) in *.
  set (s1 := with_listeners (listeners s ++ [x1]) s) in *.
  destruct (register_held "session:joined" (joined_handler (S n) joinedCallback)
              p1 j s1 Hr1 Hs1) as (Hs2 & _ & Hc2 & Hr2 & _).
  set (p2 := register "session:joined" (joined_handler (S n) joinedCallback) p1) in *.
  set (s2 := with_listeners (listeners s1 ++ [x2]) s1) in *.
  assert (Hm : mounted = ((off_sync n syncCallback, off_joined (S n) joinedCallback), p2)).
  { subst mounted. unfold nowPlaying_effect, onSyncCommand, onSessionJoined.
    fold n. fold p1. fold n in Hn1. by rewrite Hn1. }
  subst p4 p3. rewrite Hm. cbn [fst snd]. unfold nowPlaying_cleanup. cbn [fst snd].
  set (p3 := deliver_all j es p2).
  assert (Hheard_n : forall e,
    heard n (listeners s2) e = match e with SessionSync c => [SyncArg c] | _ => [] end).
  { intros e. cbn [listeners s2 s1 with_listeners].
    rewrite !heard_app, (heard_wired n n s e Hw) by lia.
    unfold x1, x2. rewrite heard_sync, heard_joined.
    rewrite decide_True by done. rewrite decide_False by lia.
    by rewrite app_nil_r. }
  assert (Hheard_Sn : forall e,
    heard (S n) (listeners s2) e
    = match e with SessionJoined a b => [JoinedArg a b] | _ => [] end).
  { intros e. cbn [listeners s2 s1 with_listeners].
    rewrite !heard_app, (heard_wired n (S n) s e Hw) by lia.
    unfold x1, x2. rewrite heard_sync, heard_joined.
    rewrite decide_False by lia. by rewrite decide_True. }
  assert (Hrec : forall h, n <= h -> received h p2 = []).
  { intros h Hle. rewrite (received_calls h p p2) by congruence.
    by apply received_fresh. }
  assert (Harr : arrivals p2 j es = arrivals p j es)
    by by apply (arrivals_same p p2 j s s2).
  assert (H3n : received n p3 = sync_arguments (arrivals p j es)).
  { subst p3. rewrite (received_arrivals n j es p2 s2 Hs2), Harr, Hrec by lia.
    unfold sync_arguments. apply flat_map_ext, Hheard_n. }
  assert (H3Sn : received (S n) p3 = joined_arguments (arrivals p j es)).
  { subst p3. rewrite (received_arrivals (S n) j es p2 s2 Hs2), Harr, Hrec by lia.
    unfold joined_arguments. apply flat_map_ext, Hheard_Sn. }
  destruct (deliver_all_socket j es p2 s2 Hs2) as (Hr3 & s3 & Hs3 & Hl3 & _).
  fold p3 in Hr3, Hs3. rewrite Hr2 in Hr3.
  destruct (detach_held (off_sync n syncCallback) p3 j s3 Hr3 Hs3) as (Hs4 & _ & Hc4).
  set (p3' := detach (off_sync n syncCallback) p3) in *.
  assert (Hr3' : socketRef p3' = Some j).
  { subst p3'. by destruct (detach_frame (off_sync n syncCallback) p3) as (-> & _). }
  destruct (detach_held (off_joined (S n) joinedCallback) p3' j _ Hr3' Hs4)
    as (Hs5 & _ & Hc5).
  set (p4 := detach (off_joined (S n) joinedCallback) p3') in *.
  cbn [detach_event detach_handler listeners with_listeners] in Hs5.
  fold x1 x2 in Hs5. rewrite Hl3 in Hs5.
  assert (Hl4 : remove_first x2 (remove_first x1 (listeners s2)) = listeners s).
  { cbn [listeners s2 s1 with_listeners]. rewrite <- app_assoc. cbn [app].
    rewrite remove_first_fresh
      by (apply (fresh_handler_absent n); [done | cbn; lia]).
    rewrite remove_first_fresh
      by (apply (fresh_handler_absent n); [done | cbn; lia]).
    by rewrite app_nil_r. }
  rewrite Hl4 in Hs5.
  assert (Hafter : forall h, n <= h -> received h (deliver_all j later p4) = received h p3).
  { intros h Hle.
    rewrite (received_arrivals h j later p4 _ Hs5). cbn [listeners with_listeners].
    rewrite (flat_map_ext _ (fun _ => []) (fun e => heard_wired n h s e Hw Hle)).
    rewrite flat_map_nil, app_nil_r.
    apply received_calls. congruence. }
  conjs; try done.
  - exists s. eexists. conjs; [done|exact Hs5|reflexivity].
  - by rewrite Hafter by lia.
  - by rewrite Hafter by lia.
Qed.

Lemma nowPlaying_subscriptions_witness :
  let p := run [Effect true (Some "u1"); Transport 0 Connect] initial in
  let mounted := nowPlaying_effect 7 8 p in
  let es := [SessionSync (command "A"); SessionJoined "u2" "joined"; Connect;
             SessionSync (command "B")] in
  let p3 := deliver_all 0 es (snd mounted) in
  map call_callback (calls p3) = [7; 8; 7] /\
  received 0 p3 = [SyncArg (command "A"); SyncArg (command "B")] /\
  received 1 p3 = [JoinedArg "u2" "joined"].
Proof.
  cbv zeta. split; [vm_compute; reflexivity|].
  destruct (nowPlaying_subscriptions [Effect true (Some "u1"); Transport 0 Connect]
              7 8 0
              [SessionSync (command "A"); SessionJoined "u2" "joined"; Connect;
               SessionSync (command "B")] [] eq_refl) as (H1 & H2 & _).
  split; [exact H1 | exact H2].
Defined.

(** While a partner status is shown, the socket held is open: a
    [disconnect] of either kind clears the status. *)
Lemma status_needs_open_socket p i s :
  tidy p -> socketRef p = Some i -> sockets p !! i = Some s ->
  partnerStatus p <> None -> active s = true.
Proof.
  intros Ht Hr Hs Hst. destruct (active s) eqn:Ha; [reflexivity|].
  destruct Hst. apply (tidy_idle p Ht). intros j s' Hj.
  destruct (active s') eqn:Ha'; [|reflexivity].
  pose proof (tidy_active p Ht j s' Hj Ha'). congruence.
Qed.

(** Commands delivered after the server has closed the socket do not
    arrive. *)
Example nothing_arrives_after_server_disconnect :
  let p := run [Effect true (Some "u1"); Transport 0 Connect] initial in
  let es := [SessionSync (command "A"); Disconnect closed_for_good;
             SessionSync (command "B")] in
  arrivals p 0 es = [SessionSync (command "A"); Disconnect closed_for_good] /\
  received 0 (deliver_all 0 es (snd (nowPlaying_effect 7 8 p))) = [SyncArg (command "A")].
Proof. split; vm_compute; reflexivity. Qed.

(** X24.  [handleJoinPartner] shows its alert and does nothing else unless
    the partner status says the partner is listening.  When it does not
    show the alert, the request is not lost: in every state a mounted
    provider can reach a socket is then held and open, the partner is
    online, and exactly one [session:join] is handed to that socket. *)
Theorem handleJoinPartner_joins_a_listening_partner (actions : list Action) :
  let p := run actions initial in
  let r := handleJoinPartner p in
  (fst r = true -> snd r = p) /\
  (fst r = false ->
   exists i s status,
     socketRef p = Some i /\ sockets p !! i = Some s /\ active s = true /\
     partnerStatus p = Some status /\ isListening status = true /\
     isPartnerOnline p = true /\
     emitted (snd r) = emitted p ++ [(i, SessionJoin)]) /\
  (fst r = true <->
   forall status, partnerStatus p = Some status -> isListening status = false).
Proof.
  intros p r. pose proof (tidy_reachable actions) as Ht. fold p in Ht.
  destruct (in_step_reachable actions) as [_ Hl]. fold p in Hl.
  subst r. unfold handleJoinPartner.
  destruct (partnerStatus p) as [status|] eqn:Hst;
    [destruct (isListening status) eqn:Hli|]; cbn [fst snd]; conjs; try done.
  - intros _. destruct (socketRef p) as [i|] eqn:Hr.
    + destruct (tidy_ref p Ht i Hr) as (s & Hs).
      exists i, s, status. conjs; try done.
      * apply (status_needs_open_socket p i s Ht Hr Hs). congruence.
      * by eapply Hl.
      * unfold joinPartnerSession, emit. by rewrite Hr.
    + destruct (tidy_unheld p Ht Hr) as (_ & _ & Hnone). congruence.
  - split; [done|]. intros H. specialize (H status eq_refl). congruence.
  - split; [|done]. intros _ st [= <-]. exact Hli.
Qed.

End Channel.

(** ** [lib/config]: the URL the provider connects to *)

Section ApiUrl.
Import Config.

Lemma before_colon_split (h : string) :
  (h = before_colon h \/ exists rest, h = before_colon h ++ ":" ++ rest)%string.
Proof.
  induction h as [|c h IH]; [by left|]. cbn.
  destruct (Ascii.eqb_spec c ":"%char) as [->|Hne].
  - right. by exists h.
  - destruct IH as [IH|[rest IH]].
    + left. by f_equal.
    + right. exists rest. rewrite IH at 1. reflexivity.
Qed.

Lemma before_colon_no_colon (h : string) (a b : string) :
  before_colon h <> (a ++ ":" ++ b)%string.
Proof.
  revert a. induction h as [|c h IH]; intros a; cbn.
  - by destruct a.
  - destruct (Ascii.eqb_spec c ":"%char) as [->|Hne]; [by destruct a|].
    destruct a as [|c' a]; cbn; intros [= Hc Heq]; [congruence|].
    by apply (IH a).
Qed.

(** X25.  [getApiUrl]: an explicit [EXPO_PUBLIC_API_URL] always wins, and
    then the socket and the REST client use the same URL.  Without it, in
    development with a host URI, the URL is [http://<host>:3000] where
    [<host>] is the host URI up to its first colon: it contains no colon
    itself, so the dev server's own port never ends up in the URL.  The
    result is never the empty string. *)
Theorem getApiUrl_resolution (r : Runtime) :
  (forall url, EXPO_PUBLIC_API_URL r = Some url -> url <> EmptyString ->
     getApiUrl r = url /\ rest_API_URL r = url) /\
  (forall h, Js.str_truthy (EXPO_PUBLIC_API_URL r) = false -> DEV r = true ->
     hostUri r = Some h -> h <> EmptyString ->
     exists host,
       getApiUrl r = ("http://" ++ host ++ ":3000")%string /\
       (h = host \/ exists rest, h = (host ++ ":" ++ rest)%string) /\
       (forall a b, host <> (a ++ ":" ++ b)%string)) /\
  getApiUrl r <> EmptyString.
Proof.
  unfold getApiUrl, rest_API_URL, the. conjs.
  - intros url -> Hne. cbn [default]. by rewrite !(str_truthy_Some _ Hne).
  - intros h -> -> -> Hne. rewrite (str_truthy_Some _ Hne). cbn [default].
    exists (before_colon h). conjs; [reflexivity|apply before_colon_split|].
    apply before_colon_no_colon.
  - destruct (EXPO_PUBLIC_API_URL r) as [url|]; cbn [default Js.str_truthy].
    + destruct (String.eqb_spec url EmptyString) as [->|Hne]; cbn [negb]; [|done].
      destruct (DEV r); [|done].
      destruct (Js.str_truthy (hostUri r)); [done|].
      by destruct (String.eqb (Platform_OS r) "android").
    + destruct (DEV r); [|done].
      destruct (Js.str_truthy (hostUri r)); [done|].
      by destruct (String.eqb (Platform_OS r) "android").
Qed.

Example getApiUrl_on_a_device :
  getApiUrl {| EXPO_PUBLIC_API_URL := None; DEV := true;
               hostUri := Some "192.168.1.100:8081"; Platform_OS := "ios" |}
  = "http://192.168.1.100:3000" /\
  rest_API_URL {| EXPO_PUBLIC_API_URL := None; DEV := true;
                  hostUri := Some "192.168.1.100:8081"; Platform_OS := "ios" |}
  = "http://localhost:3000".
Proof. split; reflexivity. Qed.

End ApiUrl.
